(** * A consistent-hashing ring: the [ConsistentHash] class of [Main.py]

    The development embeds the class shallowly.  Python integers are [Z],
    byte strings are lists of 8-bit [Z] values, the [ring] dictionary is a
    [gmap Z string], the [sorted_keys] list is a [list Z], and every method
    is a computation in a small state-and-exception monad over the instance
    attributes, so that a raised [KeyError], [ValueError] or [IndexError]
    and the partially mutated state it leaves behind are both visible.

    A [string] stands for the UTF-8 encoding of a Python [str]: the encoding
    distributes over concatenation, which is all that [add_node] and
    [remove_node] need of it.  Module [Str] has the hash and the lookup on
    a [str] as Python has it, a sequence of code points, where
    [key.encode('utf-8')] raises on a surrogate. *)

From Stdlib Require Import ZArith List Lia.
From Stdlib Require Import Strings.String Strings.Ascii.
From stdpp Require Import base tactics option list sorting gmap strings pretty.
From Equations Require Import Equations.

Local Open Scope Z_scope.

(** ** [hashlib.md5]: the MD5 digest (RFC 1321) on byte lists *)

Module MD5.

Definition add32 (a b : Z) : Z := (a + b) mod 2 ^ 32.

Definition not32 (a : Z) : Z := Z.lxor a 0xFFFFFFFF.

Definition rotl32 (x c : Z) : Z :=
  Z.lor (Z.shiftl x c) (Z.shiftr x (32 - c)) mod 2 ^ 32.

(** Little-endian serialisation of a word into [n] bytes. *)
Fixpoint le_bytes (n : nat) (w : Z) : list Z :=
  match n with
  | O => []
  | S n' => w mod 256 :: le_bytes n' (w / 256)
  end.

Fixpoint le_word (bs : list Z) : Z :=
  match bs with
  | [] => 0
  | b :: bs' => b + 256 * le_word bs'
  end.

(** Per-round shift amounts and the sine-derived constants. *)
Definition shifts : list Z :=
  [7; 12; 17; 22; 7; 12; 17; 22; 7; 12; 17; 22; 7; 12; 17; 22;
   5; 9; 14; 20; 5; 9; 14; 20; 5; 9; 14; 20; 5; 9; 14; 20;
   4; 11; 16; 23; 4; 11; 16; 23; 4; 11; 16; 23; 4; 11; 16; 23;
   6; 10; 15; 21; 6; 10; 15; 21; 6; 10; 15; 21; 6; 10; 15; 21].

Definition sines : list Z :=
  [0xd76aa478; 0xe8c7b756; 0x242070db; 0xc1bdceee;
   0xf57c0faf; 0x4787c62a; 0xa8304613; 0xfd469501;
   0x698098d8; 0x8b44f7af; 0xffff5bb1; 0x895cd7be;
   0x6b901122; 0xfd987193; 0xa679438e; 0x49b40821;
   0xf61e2562; 0xc040b340; 0x265e5a51; 0xe9b6c7aa;
   0xd62f105d; 0x02441453; 0xd8a1e681; 0xe7d3fbc8;
   0x21e1cde6; 0xc33707d6; 0xf4d50d87; 0x455a14ed;
   0xa9e3e905; 0xfcefa3f8; 0x676f02d9; 0x8d2a4c8a;
   0xfffa3942; 0x8771f681; 0x6d9d6122; 0xfde5380c;
   0xa4beea44; 0x4bdecfa9; 0xf6bb4b60; 0xbebfbc70;
   0x289b7ec6; 0xeaa127fa; 0xd4ef3085; 0x04881d05;
   0xd9d4d039; 0xe6db99e5; 0x1fa27cf8; 0xc4ac5665;
   0xf4292244; 0x432aff97; 0xab9423a7; 0xfc93a039;
   0x655b59c3; 0x8f0ccc92; 0xffeff47d; 0x85845dd1;
   0x6fa87e4f; 0xfe2ce6e0; 0xa3014314; 0x4e0811a1;
   0xf7537e82; 0xbd3af235; 0x2ad7d2bb; 0xeb86d391].

Record state := State { sa : Z; sb : Z; sc : Z; sd : Z }.

Definition initial : state :=
  State 0x67452301 0xefcdab89 0x98badcfe 0x10325476.

(** The sixteen little-endian words of a 64-byte block. *)
Fixpoint words (n : nat) (block : list Z) : list Z :=
  match n with
  | O => []
  | S n' => le_word (take 4 block) :: words n' (drop 4 block)
  end.

(** One of the 64 operations of the compression function. *)
Definition operation (m : list Z) (st : state) (i : nat) : state :=
  let '(State a b c d) := st in
  let zi := Z.of_nat i in
  let '(f, g) :=
    if zi <? 16 then (Z.lor (Z.land b c) (Z.land (not32 b) d), zi)
    else if zi <? 32 then
      (Z.lor (Z.land d b) (Z.land (not32 d) c), (5 * zi + 1) mod 16)
    else if zi <? 48 then (Z.lxor (Z.lxor b c) d, (3 * zi + 5) mod 16)
    else (Z.lxor c (Z.lor b (not32 d)), (7 * zi) mod 16) in
  let f' := add32 (add32 (add32 f a) (nth i sines 0))
                  (nth (Z.to_nat g) m 0) in
  State d (add32 b (rotl32 f' (nth i shifts 0))) b c.

Definition compress (st : state) (block : list Z) : state :=
  let m := words 16 block in
  let st' := fold_left (operation m) (seq 0 64) st in
  State (add32 (sa st) (sa st')) (add32 (sb st) (sb st'))
        (add32 (sc st) (sc st')) (add32 (sd st) (sd st')).

(** The message followed by [0x80], zeros up to 56 modulo 64, and the
    bit length as a 64-bit little-endian integer. *)
Definition pad (msg : list Z) : list Z :=
  let len := Z.of_nat (length msg) in
  msg ++ [0x80] ++ repeat 0 (Z.to_nat ((55 - len) mod 64))
      ++ le_bytes 8 ((8 * len) mod 2 ^ 64).

Fixpoint blocks (n : nat) (st : state) (bs : list Z) : state :=
  match n with
  | O => st
  | S n' => blocks n' (compress st (take 64 bs)) (drop 64 bs)
  end.

Definition digest (msg : list Z) : list Z :=
  let padded := pad msg in
  let st := blocks (length padded / 64)%nat initial padded in
  le_bytes 4 (sa st) ++ le_bytes 4 (sb st)
    ++ le_bytes 4 (sc st) ++ le_bytes 4 (sd st).

End MD5.

(** [key.encode('utf-8')]: the bytes of the (already encoded) string. *)
Definition encode (key : string) : list Z :=
  map (fun b => Z.of_N (Byte.to_N b)) (list_byte_of_string key).


(** ** The instance and the monad of its methods *)

Inductive exn :=
| KeyError (k : Z)
| ValueError (x : Z)
| IndexError
| StructError
| UnicodeEncodeError.

Inductive outcome (A : Type) :=
| Returned (a : A)
| Raised (e : exn).
Arguments Returned {A} a.
Arguments Raised {A} e.

(** The attributes set by [__init__]. *)
Record ConsistentHash := Self {
  replicas : Z;
  ring : gmap Z string;
  sorted_keys : list Z
}.

#[global] Instance exn_eq_dec : EqDecision exn.
Proof. solve_decision. Defined.

#[global] Instance outcome_eq_dec {A} `{EqDecision A} : EqDecision (outcome A).
Proof. solve_decision. Defined.

#[global] Instance ConsistentHash_eq_dec : EqDecision ConsistentHash.
Proof. solve_decision. Defined.

Definition M (A : Type) : Type := ConsistentHash → outcome A * ConsistentHash.

#[global] Instance M_ret : MRet M := λ A a s, (Returned a, s).
#[global] Instance M_bind : MBind M := λ A B f m s,
  match m s with
  | (Returned a, s') => f a s'
  | (Raised e, s') => (Raised e, s')
  end.

Definition lift {A} (o : outcome A) : M A := λ s, (o, s).

(** Attribute reads and the container primitives the methods use. *)
Definition self_replicas : M Z := λ s, (Returned (replicas s), s).
Definition self_sorted_keys : M (list Z) := λ s, (Returned (sorted_keys s), s).

(** [not self.ring] *)
Definition ring_is_empty : M bool :=
  λ s, (Returned (bool_decide (ring s = ∅)), s).

(** [self.ring[h] = node] *)
Definition ring_setitem (h : Z) (node : string) : M unit :=
  λ s, (Returned (), Self (replicas s) (<[h := node]> (ring s)) (sorted_keys s)).

(** [del self.ring[h]] *)
Definition ring_delitem (h : Z) : M unit := λ s,
  match ring s !! h with
  | Some _ => (Returned (), Self (replicas s) (delete h (ring s)) (sorted_keys s))
  | None => (Raised (KeyError h), s)
  end.

(** [self.ring[h]] *)
Definition ring_getitem (h : Z) : M string := λ s,
  match ring s !! h with
  | Some node => (Returned node, s)
  | None => (Raised (KeyError h), s)
  end.

(** [self.sorted_keys.append(h)] *)
Definition sorted_keys_append (h : Z) : M unit :=
  λ s, (Returned (), Self (replicas s) (ring s) (sorted_keys s ++ [h])).

(** [self.sorted_keys.sort()]: on integers the result is the one ascending
    arrangement of the elements, whichever sorting algorithm produces it. *)
Definition sorted_keys_sort : M unit :=
  λ s, (Returned (), Self (replicas s) (ring s) (merge_sort Z.le (sorted_keys s))).

(** [list.remove(x)]: the list without the first occurrence of [x], or
    nothing when [x] does not occur. *)
Fixpoint list_remove (x : Z) (l : list Z) : option (list Z) :=
  match l with
  | [] => None
  | y :: l' => if decide (y = x) then Some l' else (y ::.) <$> list_remove x l'
  end.

(** [self.sorted_keys.remove(h)] *)
Definition sorted_keys_remove (h : Z) : M unit := λ s,
  match list_remove h (sorted_keys s) with
  | Some ks => (Returned (), Self (replicas s) (ring s) ks)
  | None => (Raised (ValueError h), s)
  end.

(** [self.sorted_keys[idx]] for a non-negative index. *)
Definition sorted_keys_getitem (idx : nat) : M Z := λ s,
  match sorted_keys s !! idx with
  | Some k => (Returned k, s)
  | None => (Raised IndexError, s)
  end.

(** [for x in xs: body(x)] *)
Fixpoint for_each {A} (xs : list A) (body : A → M unit) : M unit :=
  match xs with
  | [] => mret ()
  | x :: xs' => body x ;; for_each xs' body
  end.

(** [range(n)] *)
Definition range (n : Z) : list Z := Z.of_nat <$> seq 0 (Z.to_nat n).

(** [str(i)] for an integer. *)
Definition str (i : Z) : string := pretty i.

(** ** [bisect.bisect_left] *)

(** [mid = (lo + hi) // 2] *)
Definition mid (lo hi : nat) : nat := ((lo + hi) / 2)%nat.

#[global] Arguments mid : simpl never.

Equations? bisect_loop (a : list Z) (x : Z) (lo hi : nat) : outcome nat
  by wf (hi - lo)%nat lt :=
  bisect_loop a x lo hi with decide (lo < hi)%nat := {
    | right _ := Returned lo
    | left _ with a !! mid lo hi := {
        | None := Raised IndexError
        | Some v with decide (v < x) := {
            | left _ := bisect_loop a x (mid lo hi + 1)%nat hi
            | right _ := bisect_loop a x lo (mid lo hi) } } }.
Proof.
  all: unfold mid;
    pose proof (Nat.div_mod_eq (lo + hi) 2);
    pose proof (Nat.mod_upper_bound (lo + hi) 2); lia.
Qed.

Definition bisect_left (a : list Z) (x : Z) : outcome nat :=
  bisect_loop a x 0 (length a).

(** ** The methods of [ConsistentHash] *)

(** [struct.unpack('>I', b)[0]]: exactly four bytes, big-endian. *)
Definition unpack_I (b : list Z) : outcome Z :=
  match b with
  | [b0; b1; b2; b3] => Returned (((b0 * 256 + b1) * 256 + b2) * 256 + b3)
  | _ => Raised StructError
  end.

(** [_hash] on a key given by its UTF-8 bytes; [Str._hash] below is the
    method on the [str] itself, encoding included. *)
Definition _hash (key : string) : M Z :=
  let m := MD5.digest (encode key) in
  lift (unpack_I (take 4 m)).

Definition vnode_key (node : string) (i : Z) : string :=
  (node ++ ":" ++ str i)%string.

Definition add_node (node : string) : M unit :=
  n ← self_replicas;
  for_each (range n) (λ i,
    h ← _hash (vnode_key node i);
    ring_setitem h node ;;
    sorted_keys_append h) ;;
  sorted_keys_sort.

Definition remove_node (node : string) : M unit :=
  n ← self_replicas;
  for_each (range n) (λ i,
    h ← _hash (vnode_key node i);
    ring_delitem h ;;
    sorted_keys_remove h).

Definition get_node (key : string) : M (option string) :=
  empty ← ring_is_empty;
  if (empty : bool) then mret None else
  h ← _hash key;
  ks ← self_sorted_keys;
  idx ← lift (bisect_left ks h);
  let idx := if decide (idx = length ks) then 0%nat else idx in
  k ← sorted_keys_getitem idx;
  node ← ring_getitem k;
  mret (Some node).

(** [ConsistentHash(nodes, replicas)]; [None] and the empty list both skip
    the loop. *)
Definition __init__ (nodes : option (list string)) (n : Z) : outcome unit * ConsistentHash :=
  let self := Self n ∅ [] in
  match nodes with
  | Some (node :: rest) => for_each (node :: rest) add_node self
  | _ => (Returned (), self)
  end.


(** ** Keys as Python strings

    A Python [str] is a sequence of code points, integers from [0] to
    [0x10FFFF].  [key.encode('utf-8')] raises [UnicodeEncodeError] on a
    surrogate, a code point from [0xD800] to [0xDFFF]; [_hash] and
    [get_node] are here as they act on such a key. *)

Module Str.

Definition str : Type := list Z.

Definition surrogate (c : Z) : Prop := 0xD800 ≤ c ≤ 0xDFFF.

(** The string has an encoding: every element is a code point and none
    is a surrogate. *)
Definition encodable (key : str) : Prop :=
  Forall (λ c, 0 ≤ c ≤ 0x10FFFF ∧ ¬ surrogate c) key.

(** The UTF-8 bytes of one code point. *)
Definition encode_char (c : Z) : outcome (list Z) :=
  if decide (c < 0x80) then Returned [c]
  else if decide (c < 0x800) then
    Returned [0xC0 + c / 64; 0x80 + c mod 64]
  else if decide (surrogate c) then Raised UnicodeEncodeError
  else if decide (c < 0x10000) then
    Returned [0xE0 + c / 4096; 0x80 + c / 64 mod 64; 0x80 + c mod 64]
  else
    Returned [0xF0 + c / 262144; 0x80 + c / 4096 mod 64;
              0x80 + c / 64 mod 64; 0x80 + c mod 64].

(** [key.encode('utf-8')] *)
Fixpoint encode (key : str) : outcome (list Z) :=
  match key with
  | [] => Returned []
  | c :: key' =>
      match encode_char c with
      | Raised e => Raised e
      | Returned b =>
          match encode key' with
          | Raised e => Raised e
          | Returned bs => Returned (b ++ bs)
          end
      end
  end.

Definition _hash (key : str) : M Z :=
  b ← lift (encode key);
  let m := MD5.digest b in
  lift (unpack_I (take 4 m)).

Definition get_node (key : str) : M (option string) :=
  empty ← ring_is_empty;
  if (empty : bool) then mret None else
  h ← _hash key;
  ks ← self_sorted_keys;
  idx ← lift (bisect_left ks h);
  let idx := if decide (idx = length ks) then 0%nat else idx in
  k ← sorted_keys_getitem idx;
  node ← ring_getitem k;
  mret (Some node).

#[global] Instance surrogate_dec c : Decision (surrogate c).
Proof. unfold surrogate. apply _. Defined.

#[global] Instance encodable_dec key : Decision (encodable key).
Proof. unfold encodable. apply _. Defined.

(** The code points of a string of ASCII characters. *)
Definition of_ascii (key : string) : str :=
  map (fun b => Z.of_N (Byte.to_N b)) (list_byte_of_string key).

End Str.

(** The string whose bytes are the given ones. *)
Definition string_of_bytes (bs : list Z) : string :=
  string_of_list_byte
    (map (fun b => default Byte.x00 (Byte.of_N (Z.to_N b))) bs).

(** ** Specification vocabulary *)

(** The value [_hash] returns: the first four digest bytes, big-endian. *)
Definition be_word (bs : list Z) : Z := foldl (λ acc b, acc * 256 + b) 0 bs.

Definition hash32 (key : string) : Z :=
  be_word (take 4 (MD5.digest (encode key))).

(** The virtual-node positions of [node] on a ring with [replicas s]. *)
Definition positions (s : ConsistentHash) (node : string) : list Z :=
  (λ i, hash32 (vnode_key node i)) <$> range (replicas s).

(** The loop bodies of [add_node] and [remove_node] after hashing. *)
Definition place (node : string) (h : Z) : M unit :=
  ring_setitem h node ;; sorted_keys_append h.

Definition unplace (h : Z) : M unit :=
  ring_delitem h ;; sorted_keys_remove h.

(** [set_all node ps m]: the map after [m[p] = node] for each [p] of [ps]. *)
Definition set_all (node : string) (ps : list Z) (m : gmap Z string) : gmap Z string :=
  foldl (λ m h, <[h := node]> m) m ps.

(** [i] splits [a] at [x]: everything before index [i] is below [x],
    everything from [i] on is at least [x]. *)
Definition splits_at (a : list Z) (x : Z) (i : nat) : Prop :=
  (i ≤ length a)%nat ∧
  (∀ j v, (j < i)%nat → a !! j = Some v → v < x) ∧
  (∀ j v, (i ≤ j)%nat → a !! j = Some v → x ≤ v).

(** A position is occupied when the dictionary has it as a key. *)
Definition occupied (s : ConsistentHash) (p : Z) : Prop := is_Some (ring s !! p).

(** The data-model invariant that lookups rely on: the sequence is sorted
    ascending and holds exactly the keys of the dictionary. *)
Definition ring_inv (s : ConsistentHash) : Prop :=
  Sorted Z.le (sorted_keys s) ∧
  (list_to_set (sorted_keys s) : gset Z) = dom (ring s).

(** [successor s h p]: [p] is the first occupied position clockwise from
    [h], that is the least occupied position at or after [h], or the least
    occupied position of all when every one is before [h]. *)
Definition successor (s : ConsistentHash) (h p : Z) : Prop :=
  occupied s p ∧
  ((h ≤ p ∧ ∀ q, occupied s q → h ≤ q → p ≤ q) ∨
   ((∀ q, occupied s q → q < h) ∧ ∀ q, occupied s q → p ≤ q)).

(** [node] is present: each of its virtual positions is owned by it. *)
Definition present (s : ConsistentHash) (node : string) : Prop :=
  Forall (λ p, ring s !! p = Some node) (positions s node).

(** The positions of [node] are pairwise distinct and all unoccupied: the
    node is not on the ring and none of its labels collides with a label
    already placed or with another of its own. *)
Definition fresh (s : ConsistentHash) (node : string) : Prop :=
  NoDup (positions s node) ∧ Forall (λ p, ring s !! p = None) (positions s node).

(** What holds after any calls at all. *)
Definition weak_inv (s : ConsistentHash) : Prop :=
  Sorted Z.le (sorted_keys s) ∧ ∀ p, occupied s p → p ∈ sorted_keys s.

(** What holds as long as every [add_node] found its positions fresh. *)
Definition strong_inv (s : ConsistentHash) : Prop :=
  NoDup (sorted_keys s) ∧ ∀ p, p ∈ sorted_keys s ↔ occupied s p.

(** Every entry belongs to a member and sits on one of its positions. *)
Definition owned (s : ConsistentHash) (ms : gset string) : Prop :=
  ∀ p x, ring s !! p = Some x → x ∈ ms ∧ p ∈ positions s x.

(** *** Lifetimes: construction followed by calls *)

Inductive call :=
| AddNode (node : string)
| RemoveNode (node : string)
| GetNode (key : string).

Definition perform (c : call) : M unit :=
  match c with
  | AddNode node => add_node node
  | RemoveNode node => remove_node node
  | GetNode key => get_node key ;; mret ()
  end.

(** The instance after the calls, made one after the other by a caller
    that carries on after an exception. *)
Fixpoint run (cs : list call) (s : ConsistentHash) : ConsistentHash :=
  match cs with
  | [] => s
  | c :: cs' => run cs' (perform c s).2
  end.

(** Membership as the caller sees it: a node joins at [add_node] and
    leaves when a [remove_node] of it returns. *)
Definition update_members (c : call) (o : outcome unit) (ms : gset string) : gset string :=
  match c, o with
  | AddNode node, _ => {[node]} ∪ ms
  | RemoveNode node, Returned _ => ms ∖ {[node]}
  | _, _ => ms
  end.


(** Every [add_node] of the calls finds the positions of its node fresh. *)
Fixpoint collision_free (cs : list call) (s : ConsistentHash) : bool :=
  match cs with
  | [] => true
  | c :: cs' =>
      match c with
      | AddNode node => bool_decide (fresh s node)
      | _ => true
      end && collision_free cs' (perform c s).2
  end.

Definition blank (n : Z) : ConsistentHash := Self n ∅ [].

Definition initial_nodes (nodes : option (list string)) : list string :=
  default [] nodes.

Definition state_after (nodes : option (list string)) (n : Z) (cs : list call) : ConsistentHash :=
  run cs (__init__ nodes n).2.


Definition clean (nodes : option (list string)) (n : Z) (cs : list call) : bool :=
  collision_free ((AddNode <$> initial_nodes nodes) ++ cs) (blank n).

(** *** Instances used as examples

    With one replica the labels ["Node_44835:0"] and ["Node_70291:0"] share
    the position [931545582]: their MD5 digests start with the same four
    bytes. *)

Definition ring_abc : ConsistentHash :=
  state_after (Some ["A"; "B"; "C"]%string) 2 [].

Definition ring_a3 : ConsistentHash :=
  state_after (Some ["A"]%string) 3 [].

Definition ring_first : ConsistentHash :=
  state_after (Some ["Node_44835"]%string) 1 [].

Definition ring_both : ConsistentHash :=
  state_after (Some ["Node_44835"; "Node_70291"]%string) 1 [].

Definition calls_stale : list call :=
  [RemoveNode "Node_70291"; AddNode "B"]%string.

Definition ring_stale : ConsistentHash :=
  state_after (Some ["Node_44835"; "Node_70291"]%string) 1 calls_stale.

Definition calls_churn : list call :=
  [RemoveNode "B"; AddNode "D"; GetNode "x"; RemoveNode "Z"]%string.

(** *** Further vocabulary *)

(** No character of the string is a colon. *)
Definition no_colon (s : string) : Prop :=
  Forall (λ c, c ≠ ":"%char) (list_ascii_of_string s).

(** ** The simulation driver

    [run_simulation] builds its node list, draws its keys with [uuid4] and
    prints statistics.  The lists are arguments here, and the model stops
    at the values the prints read: the two dictionaries of loads, the
    mapping of the keys and the counter of moved keys.  An exception of the
    ring, or a [KeyError] of one of the dictionaries, ends the run. *)

Inductive sim_exn :=
| FromRing (e : exn)
| LoadKeyError (node : option string)
| MappingKeyError (key : string).

(** [{n: 0 for n in nodes}] *)
Definition zero_load (nodes : list string) : gmap string Z :=
  list_to_map ((λ x, (x, 0)) <$> nodes).

(** [load[node] += 1], where [node] is what [get_node] returned. *)
Definition increment (node : option string) (load : gmap string Z)
  : sim_exn + gmap string Z :=
  match node with
  | Some x =>
      match load !! x with
      | Some c => inr (<[x := c + 1]> load)
      | None => inl (LoadKeyError node)
      end
  | None => inl (LoadKeyError None)
  end.

(** The first loop over the keys,
    [node = ch.get_node(k); initial_mapping[k] = node; node_load[node] += 1]. *)
Fixpoint distribute (keys : list string) (ch : ConsistentHash)
    (initial_mapping : gmap string (option string)) (node_load : gmap string Z)
  : sim_exn + (ConsistentHash * gmap string (option string) * gmap string Z) :=
  match keys with
  | [] => inr (ch, initial_mapping, node_load)
  | k :: keys' =>
      match get_node k ch with
      | (Raised e, _) => inl (FromRing e)
      | (Returned node, ch') =>
          match increment node node_load with
          | inl e => inl e
          | inr node_load' =>
              distribute keys' ch' (<[k := node]> initial_mapping) node_load'
          end
      end
  end.

(** The second loop over the keys,
    [new_node = ch.get_node(k)], then [moved_keys += 1] when
    [new_node != initial_mapping[k]], then [new_node_load[new_node] += 1]. *)
Fixpoint remap (keys : list string) (ch : ConsistentHash)
    (initial_mapping : gmap string (option string)) (moved_keys : Z)
    (new_node_load : gmap string Z)
  : sim_exn + (ConsistentHash * Z * gmap string Z) :=
  match keys with
  | [] => inr (ch, moved_keys, new_node_load)
  | k :: keys' =>
      match get_node k ch with
      | (Raised e, _) => inl (FromRing e)
      | (Returned new_node, ch') =>
          match initial_mapping !! k with
          | None => inl (MappingKeyError k)
          | Some old_node =>
              let moved_keys' :=
                if decide (new_node = old_node) then moved_keys
                else moved_keys + 1 in
              match increment new_node new_node_load with
              | inl e => inl e
              | inr new_node_load' =>
                  remap keys' ch' initial_mapping moved_keys' new_node_load'
              end
          end
      end
  end.

Record tally := Tally {
  initial_mapping : gmap string (option string);
  node_load : gmap string Z;
  moved_keys : Z;
  new_node_load : gmap string Z
}.

(** [run_simulation]: construction, first loop, removal of
    [nodes_to_remove], second loop over
    [{n: 0 for n in nodes if n not in nodes_to_remove}]. *)
Definition run_simulation (nodes : list string) (n : Z) (keys : list string)
    (nodes_to_remove : list string) : sim_exn + tally :=
  let ch := (__init__ (Some nodes) n).2 in
  match distribute keys ch ∅ (zero_load nodes) with
  | inl e => inl e
  | inr (ch, mapping, load) =>
      match for_each nodes_to_remove remove_node ch with
      | (Raised e, _) => inl (FromRing e)
      | (Returned _, ch) =>
          match remap keys ch mapping 0
                  (zero_load (filter (λ x, x ∉ nodes_to_remove) nodes)) with
          | inl e => inl e
          | inr (_, moved, load') => inr (Tally mapping load moved load')
          end
      end
  end.

(** The sum of the counts of a load table. *)
Definition total (load : gmap string Z) : Z :=
  map_fold (λ _ c acc, c + acc) 0 load.

(** The key was on one of the removed nodes in the first loop. *)
Definition initially_on (removed : list string)
    (mapping : gmap string (option string)) (k : string) : bool :=
  match mapping !! k with
  | Some (Some y) => bool_decide (y ∈ removed)
  | _ => false
  end.


(** The ring serves exactly the nodes of [nodes] that are [alive]: it
    satisfies the invariant without duplicates and its entries are the
    positions of those nodes. *)
Definition serves (nodes : list string) (alive : string → Prop)
    (s : ConsistentHash) : Prop :=
  ring_inv s ∧ NoDup (sorted_keys s) ∧
  ∀ p y, ring s !! p = Some y ↔ alive y ∧ y ∈ nodes ∧ p ∈ positions s y.

(** The node [get_node] returns for a key, [None] also when it raises. *)
Definition node_of (s : ConsistentHash) (k : string) : option string :=
  match (get_node k s).1 with
  | Returned node => node
  | Raised _ => None
  end.

(** Keys for the examples: on [ring_abc] they are on B, C and A. *)
Definition keys3 : list string := ["k0"; "k2"; "k6"]%string.

(** ** The hash *)

Section hash.

(** The test suite of RFC 1321, appendix A.5: the empty message, a short
    one, and one that takes two blocks. *)
Example digest_empty :
  MD5.digest (encode "") = [212; 29; 140; 217; 143; 0; 178; 4; 233; 128; 9; 152; 236; 248; 66; 126].
Proof. vm_compute. reflexivity. Qed.

Example digest_abc :
  MD5.digest (encode "abc") = [144; 1; 80; 152; 60; 210; 79; 176; 214; 150; 63; 125; 40; 225; 127; 114].
Proof. vm_compute. reflexivity. Qed.

Example digest_two_blocks :
  MD5.digest (encode "12345678901234567890123456789012345678901234567890123456789012345678901234567890")
  = [87; 237; 244; 162; 43; 227; 201; 85; 172; 73; 218; 46; 33; 7; 182; 122].
Proof. vm_compute. reflexivity. Qed.

Lemma le_bytes_4 w :
  MD5.le_bytes 4 w =
  [w mod 256; w / 256 mod 256; w / 256 / 256 mod 256;
   w / 256 / 256 / 256 mod 256].
Proof. reflexivity. Qed.

Lemma digest_prefix msg :
  ∃ b0 b1 b2 b3,
    take 4 (MD5.digest msg) = [b0; b1; b2; b3] ∧
    Forall (λ b, 0 ≤ b < 256) [b0; b1; b2; b3].
Proof.
  unfold MD5.digest.
  generalize (MD5.blocks (length (MD5.pad msg) / 64)%nat MD5.initial (MD5.pad msg)).
  intros [a b c d]. cbn [MD5.sa].
  rewrite (le_bytes_4 a). cbn [app take].
  do 4 eexists. split; [reflexivity|].
  repeat constructor; apply Z.mod_pos_bound; lia.
Qed.

Lemma digest_length msg : length (MD5.digest msg) = 16%nat.
Proof. unfold MD5.digest. rewrite !length_app. reflexivity. Qed.

Lemma _hash_run key s : _hash key s = (Returned (hash32 key), s).
Proof.
  unfold _hash, hash32, lift.
  destruct (digest_prefix (encode key)) as (b0 & b1 & b2 & b3 & -> & _).
  reflexivity.
Qed.

Lemma hash32_range key : 0 ≤ hash32 key < 2 ^ 32.
Proof.
  unfold hash32.
  destruct (digest_prefix (encode key)) as (b0 & b1 & b2 & b3 & -> & Hb).
  repeat match goal with H : Forall _ (_ :: _) |- _ => inversion_clear H end.
  unfold be_word; cbn [foldl]. lia.
Qed.

End hash.


(** ** Running the monad *)

Section monad.

Lemma bind_run {A B} (m : M A) (f : A → M B) s :
  (m ≫= f) s =
  match m s with
  | (Returned a, s') => f a s'
  | (Raised e, s') => (Raised e, s')
  end.
Proof. reflexivity. Qed.

Lemma for_each_nil {A} (body : A → M unit) s :
  for_each [] body s = (Returned (), s).
Proof. reflexivity. Qed.

Lemma for_each_cons {A} (body : A → M unit) x xs s :
  for_each (x :: xs) body s =
  match body x s with
  | (Returned _, s') => for_each xs body s'
  | (Raised e, s') => (Raised e, s')
  end.
Proof. reflexivity. Qed.

Lemma for_each_app {A} (body : A → M unit) xs ys s :
  for_each (xs ++ ys) body s =
  match for_each xs body s with
  | (Returned _, s') => for_each ys body s'
  | (Raised e, s') => (Raised e, s')
  end.
Proof.
  revert s. induction xs as [|x xs IH]; intros s; [reflexivity|].
  rewrite <- app_comm_cons, !for_each_cons.
  destruct (body x s) as [[[]|e] s']; [apply IH | reflexivity].
Qed.

(** A property of the instance that each iteration keeps, whether it
    returns or raises, holds when the loop is left. *)
Lemma for_each_preserves {A} (I : ConsistentHash → Prop) (body : A → M unit) xs s :
  (∀ x t, I t → I (body x t).2) → I s → I (for_each xs body s).2.
Proof.
  intros Hbody. revert s. induction xs as [|x xs IH]; intros s Hs; [exact Hs|].
  rewrite for_each_cons. specialize (Hbody x s Hs).
  destruct (body x s) as [[[]|e] s']; [apply IH|]; exact Hbody.
Qed.

(** Hashing the label first and then acting on the position is acting on
    the list of hashed labels. *)
Lemma for_each_hash node (k : Z → M unit) ixs s :
  for_each ixs (λ i, h ← _hash (vnode_key node i); k h) s =
  for_each ((λ i, hash32 (vnode_key node i)) <$> ixs) k s.
Proof.
  revert s. induction ixs as [|i ixs IH]; intros s; [reflexivity|].
  rewrite fmap_cons, !for_each_cons, bind_run, _hash_run.
  destruct (k _ s) as [[[]|e] s']; [apply IH | reflexivity].
Qed.

End monad.

(** ** [add_node] *)

Section add_node.

Lemma lookup_set_all node ps m p :
  set_all node ps m !! p = if decide (p ∈ ps) then Some node else m !! p.
Proof.
  unfold set_all. revert m. induction ps as [|q ps IH]; intros m; cbn [foldl].
  - rewrite decide_False; [done | apply not_elem_of_nil].
  - rewrite IH. destruct (decide (p ∈ ps)) as [Hin|Hout].
    + rewrite decide_True; [done | by right].
    + destruct (decide (p = q)) as [->|Hne].
      * rewrite lookup_insert_eq, decide_True; [done | by left].
      * rewrite lookup_insert_ne by done.
        rewrite decide_False; [done | by intros [?|?]%elem_of_cons].
Qed.

Lemma place_loop node ps s :
  for_each ps (place node) s =
  (Returned (), Self (replicas s) (set_all node ps (ring s)) (sorted_keys s ++ ps)).
Proof.
  revert s. induction ps as [|p ps IH]; intros [n m ks].
  - cbn. by rewrite app_nil_r.
  - rewrite for_each_cons. cbn [place]. unfold place.
    rewrite bind_run. cbn. rewrite IH. cbn. by rewrite <- app_assoc.
Qed.

(** [add_node] always returns, with every position of the node assigned
    to it and appended, and the sequence sorted again. *)
Lemma add_node_run node s :
  add_node node s =
  (Returned (),
   Self (replicas s) (set_all node (positions s node) (ring s))
        (merge_sort Z.le (sorted_keys s ++ positions s node))).
Proof.
  unfold add_node. rewrite bind_run. cbn [self_replicas].
  rewrite bind_run.
  change (λ i : Z, _hash (vnode_key node i) ≫= _)
    with (λ i : Z, h ← _hash (vnode_key node i); place node h).
  rewrite for_each_hash, place_loop. reflexivity.
Qed.

End add_node.

(** ** [list.remove] and sorted sequences *)

Section lists.

Lemma list_remove_Some x l l' :
  list_remove x l = Some l' → l ≡ₚ x :: l' ∧ l' `sublist_of` l.
Proof.
  revert l'. induction l as [|y l IH]; intros l'; cbn; [done|].
  destruct (decide (y = x)) as [->|Hne].
  - intros [= ->]. split; [done | by apply sublist_cons].
  - destruct (list_remove x l) as [l0|] eqn:E; [|done].
    intros [= <-]. destruct (IH l0 eq_refl) as [HP HS]. split.
    + rewrite HP. apply Permutation_swap.
    + by apply sublist_skip.
Qed.

Lemma list_remove_None x l : list_remove x l = None ↔ x ∉ l.
Proof.
  induction l as [|y l IH]; cbn.
  - split; [intros _; apply not_elem_of_nil | done].
  - destruct (decide (y = x)) as [->|Hne].
    + split; [done | intros []; by left].
    + rewrite not_elem_of_cons, <- IH.
      destruct (list_remove x l); cbn; split; try done.
      all: first [by intros [_ ?] | by intros _; split].
Qed.

Lemma list_remove_elem_of x l : x ∈ l → is_Some (list_remove x l).
Proof.
  intros Hin. destruct (list_remove x l) eqn:E; [by eexists|].
  by apply list_remove_None in E.
Qed.

Lemma StronglySorted_sublist (l1 l2 : list Z) :
  l1 `sublist_of` l2 → StronglySorted Z.le l2 → StronglySorted Z.le l1.
Proof.
  induction 1 as [|x l1 l2 Hsub IH|x l1 l2 Hsub IH]; intros Hs.
  - constructor.
  - inversion_clear Hs as [|? ? Hs' Hall]. constructor; [by apply IH|].
    eapply Forall_forall. intros y Hy.
    eapply Forall_forall in Hall; [exact Hall|].
    by eapply sublist_subseteq.
  - inversion_clear Hs. by apply IH.
Qed.

Lemma Sorted_sublist (l1 l2 : list Z) :
  l1 `sublist_of` l2 → Sorted Z.le l2 → Sorted Z.le l1.
Proof.
  intros Hsub Hs. apply StronglySorted_Sorted.
  eapply StronglySorted_sublist; [exact Hsub|].
  by apply Sorted_StronglySorted; [apply _|].
Qed.

(** In a sorted sequence the element at a smaller index is not larger. *)
Lemma Sorted_lookup_le (l : list Z) i j a b :
  Sorted Z.le l → (i ≤ j)%nat → l !! i = Some a → l !! j = Some b → a ≤ b.
Proof.
  intros Hs%Sorted_StronglySorted; [|apply _].
  revert i j. induction Hs as [|x l Hs IH Hall]; intros i j Hij Hi Hj; [done|].
  destruct i as [|i], j as [|j]; simpl in Hi, Hj.
  - injection Hi as <-. injection Hj as <-. lia.
  - injection Hi as <-. eapply Forall_forall in Hall; [exact Hall|].
    by eapply list_elem_of_lookup_2.
  - lia.
  - eapply (IH i j); [lia|done..].
Qed.

End lists.

(** ** [remove_node] *)

Section remove_node.

Lemma unplace_run h s :
  unplace h s =
  match ring s !! h with
  | None => (Raised (KeyError h), s)
  | Some _ =>
      match list_remove h (sorted_keys s) with
      | Some ks => (Returned (), Self (replicas s) (delete h (ring s)) ks)
      | None =>
          (Raised (ValueError h),
           Self (replicas s) (delete h (ring s)) (sorted_keys s))
      end
  end.
Proof.
  unfold unplace. rewrite bind_run. unfold ring_delitem, sorted_keys_remove.
  destruct (ring s !! h); [cbn|reflexivity].
  destruct (list_remove h (sorted_keys s)); reflexivity.
Qed.

Lemma remove_node_run node s :
  remove_node node s = for_each (positions s node) unplace s.
Proof.
  unfold remove_node. rewrite bind_run. cbn [self_replicas].
  change (λ i : Z, _hash (vnode_key node i) ≫= _)
    with (λ i : Z, h ← _hash (vnode_key node i); unplace h).
  by rewrite for_each_hash.
Qed.

(** What one iteration can do to the instance. *)
Lemma unplace_effect h s :
  replicas (unplace h s).2 = replicas s ∧
  (∀ p, p ≠ h → ring (unplace h s).2 !! p = ring s !! p) ∧
  (ring (unplace h s).2 !! h = None ∨ (unplace h s).2 = s) ∧
  sorted_keys (unplace h s).2 `sublist_of` sorted_keys s.
Proof.
  rewrite unplace_run. destruct (ring s !! h) as [x|] eqn:Hh; cbn.
  - destruct (list_remove h (sorted_keys s)) as [ks|] eqn:Hks; cbn.
    + repeat split; [intros; by apply lookup_delete_ne| left; apply lookup_delete_eq|].
      by apply list_remove_Some in Hks as [_ ?].
    + repeat split; [intros; by apply lookup_delete_ne| left; apply lookup_delete_eq|done].
  - repeat split; [by right | done].
Qed.

Lemma unplace_loop_replicas ps s : replicas (for_each ps unplace s).2 = replicas s.
Proof.
  apply (for_each_preserves (λ t, replicas t = replicas s)); [|done].
  intros h t <-. apply unplace_effect.
Qed.

(** The loop only deletes: what is left was there before. *)
Lemma unplace_loop_lookup ps s p x :
  ring (for_each ps unplace s).2 !! p = Some x → ring s !! p = Some x.
Proof.
  revert p x.
  apply (for_each_preserves (λ t, ∀ p x, ring t !! p = Some x → ring s !! p = Some x));
    [|done].
  intros h t IH p x Hp. apply IH.
  destruct (unplace_effect h t) as (_ & Hne & Heq & _).
  destruct (decide (p = h)) as [->|Hph]; [|by rewrite <- Hne].
  destruct Heq as [Heq|Heq]; [congruence | by rewrite <- Heq].
Qed.

Lemma unplace_loop_other ps s p :
  p ∉ ps → ring (for_each ps unplace s).2 !! p = ring s !! p.
Proof.
  revert s. induction ps as [|h ps IH]; intros s Hp; [done|].
  apply not_elem_of_cons in Hp as [Hph Hp].
  rewrite for_each_cons.
  destruct (unplace_effect h s) as (_ & Hne & _).
  destruct (unplace h s) as [[[]|e] s']; cbn in *; [rewrite IH by done|]; by apply Hne.
Qed.

(** When the loop returns, every position it was given is unoccupied. *)
Lemma unplace_loop_returned ps s s' p :
  for_each ps unplace s = (Returned (), s') → p ∈ ps → ring s' !! p = None.
Proof.
  revert s. induction ps as [|h ps IH]; intros s Hrun Hp.
  - by apply elem_of_nil in Hp.
  - rewrite for_each_cons in Hrun.
    destruct (unplace h s) as [[[]|e] s1] eqn:Hstep; [|done].
    destruct (decide (p ∈ ps)) as [Hin|Hout]; [by eapply IH|].
    apply elem_of_cons in Hp as [->|?]; [|done].
    replace s' with (for_each ps unplace s1).2 by (by rewrite Hrun).
    rewrite unplace_loop_other by done.
    pose proof (unplace_run h s) as Hr. rewrite Hstep in Hr.
    destruct (ring s !! h); [|done].
    destruct (list_remove h (sorted_keys s)); [|done].
    injection Hr as ->. apply lookup_delete_eq.
Qed.

Lemma unplace_loop_sublist ps s :
  sorted_keys (for_each ps unplace s).2 `sublist_of` sorted_keys s.
Proof.
  apply (for_each_preserves (λ t, sorted_keys t `sublist_of` sorted_keys s)); [|done].
  intros h t IH. etrans; [apply unplace_effect | exact IH].
Qed.

(** The loop returns when its positions are distinct, occupied and in
    the sequence; the sequence then loses exactly those positions. *)
Lemma unplace_loop_returns ps s :
  NoDup ps → Forall (occupied s) ps → ps ⊆+ sorted_keys s →
  ∃ s', for_each ps unplace s = (Returned (), s') ∧
        sorted_keys s ≡ₚ ps ++ sorted_keys s'.
Proof.
  revert s. induction ps as [|h ps IH]; intros s Hnd Hocc Hsub.
  - exists s. by split.
  - apply NoDup_cons in Hnd as [Hh Hnd].
    apply Forall_cons in Hocc as [[x Hx] Hocc].
    rewrite for_each_cons, unplace_run, Hx.
    destruct (list_remove_elem_of h (sorted_keys s)) as [ks Hks].
    { eapply elem_of_submseteq; [|exact Hsub]. by left. }
    rewrite Hks. apply list_remove_Some in Hks as [Hperm _].
    destruct (IH (Self (replicas s) (delete h (ring s)) ks)) as (s' & Hrun & Hp).
    + done.
    + apply Forall_forall. intros q Hq. unfold occupied; cbn.
      rewrite lookup_delete_ne by (intros ->; done).
      by eapply Forall_forall in Hocc.
    + cbn. apply (submseteq_app_inv_l _ _ [h]). cbn. by rewrite <- Hperm.
    + exists s'. split; [exact Hrun|]. cbn in Hp. by rewrite Hperm, Hp.
Qed.

End remove_node.

(** ** [bisect_left] *)

Section bisect.

Lemma mid_bounds lo hi : (lo < hi → lo ≤ mid lo hi < hi)%nat.
Proof.
  unfold mid. intros H.
  pose proof (Nat.div_mod_eq (lo + hi) 2).
  pose proof (Nat.mod_upper_bound (lo + hi) 2). lia.
Qed.

Local Ltac use_mid_bounds :=
  match goal with
  | Hl : (?lo < ?hi)%nat |- _ => pose proof (mid_bounds lo hi Hl)
  end.

Lemma bisect_loop_spec a x lo hi :
  Sorted Z.le a → (lo ≤ hi ≤ length a)%nat →
  (∀ j v, (j < lo)%nat → a !! j = Some v → v < x) →
  (∀ j v, (hi ≤ j)%nat → a !! j = Some v → x ≤ v) →
  ∃ i, bisect_loop a x lo hi = Returned i ∧ splits_at a x i.
Proof.
  intros Hs. funelim (bisect_loop a x lo hi); intros Hb Hlo Hhi.
  - exists lo. split; [reflexivity|]. assert (lo = hi) as -> by lia.
    repeat split; [lia | exact Hlo | exact Hhi].
  - exfalso. use_mid_bounds.
    match goal with E : a !! _ = None |- _ => apply lookup_ge_None in E end.
    lia.
  - use_mid_bounds.
    match goal with
    | IH : Sorted _ _ → _ → _ → _ → ∃ _, bisect_loop _ _ _ _ = _ ∧ _ |- _ =>
        apply IH; [done | lia | | done]
    end.
    intros j w Hj Hw.
    enough (w ≤ v) by lia.
    apply (Sorted_lookup_le a j (mid lo hi)); [done | lia | done | done].
  - use_mid_bounds.
    match goal with
    | IH : Sorted _ _ → _ → _ → _ → ∃ _, bisect_loop _ _ _ _ = _ ∧ _ |- _ =>
        apply IH; [done | lia | done | ]
    end.
    intros j w Hj Hw.
    enough (v ≤ w) by lia.
    apply (Sorted_lookup_le a (mid lo hi) j); [done | lia | done | done].
Qed.

(** On a sorted sequence [bisect_left] returns the index of the first
    element not less than [x], or the length when there is none. *)
Lemma bisect_left_spec a x :
  Sorted Z.le a → ∃ i, bisect_left a x = Returned i ∧ splits_at a x i.
Proof.
  intros Hs. apply bisect_loop_spec; [done | lia | intros; lia |].
  intros j v Hj Hv. apply lookup_lt_Some in Hv. lia.
Qed.

End bisect.

(** ** [get_node] *)

Section get_node.

Lemma get_node_run key s :
  get_node key s =
  if bool_decide (ring s = ∅) then (Returned None, s) else
  match bisect_left (sorted_keys s) (hash32 key) with
  | Raised e => (Raised e, s)
  | Returned i =>
      let idx := if decide (i = length (sorted_keys s)) then 0%nat else i in
      match sorted_keys s !! idx with
      | None => (Raised IndexError, s)
      | Some k =>
          match ring s !! k with
          | Some node => (Returned (Some node), s)
          | None => (Raised (KeyError k), s)
          end
      end
  end.
Proof.
  unfold get_node. rewrite bind_run. cbn [ring_is_empty].
  destruct (bool_decide (ring s = ∅)); [reflexivity|].
  rewrite bind_run, _hash_run, bind_run. cbn [self_sorted_keys].
  rewrite bind_run. unfold lift at 1.
  destruct (bisect_left (sorted_keys s) (hash32 key)) as [i|e]; [|reflexivity].
  cbn zeta. rewrite bind_run. unfold sorted_keys_getitem.
  destruct (sorted_keys s !! _) as [k|]; [|reflexivity].
  rewrite bind_run. unfold ring_getitem.
  destruct (ring s !! k); reflexivity.
Qed.

Lemma get_node_state key s : (get_node key s).2 = s.
Proof.
  rewrite get_node_run.
  destruct (bool_decide (ring s = ∅)); [reflexivity|].
  destruct (bisect_left _ _) as [i|e]; [cbn zeta|reflexivity].
  destruct (sorted_keys s !! _) as [k|]; [|reflexivity].
  destruct (ring s !! k); reflexivity.
Qed.


Lemma ring_inv_occupied s p :
  ring_inv s → p ∈ sorted_keys s ↔ occupied s p.
Proof.
  intros [_ Hdom]. unfold occupied.
  by rewrite <- elem_of_dom, <- Hdom, elem_of_list_to_set.
Qed.

(** Lookup on an instance that satisfies the invariant. *)
Lemma get_node_successor key s :
  ring_inv s → ring s ≠ ∅ →
  ∃ i p node,
    bisect_left (sorted_keys s) (hash32 key) = Returned i ∧
    splits_at (sorted_keys s) (hash32 key) i ∧
    sorted_keys s !! (if decide (i = length (sorted_keys s)) then 0%nat else i)
      = Some p ∧
    get_node key s = (Returned (Some node), s) ∧
    ring s !! p = Some node ∧ successor s (hash32 key) p.
Proof.
  intros Hinv Hne. pose proof (λ p, ring_inv_occupied s p Hinv) as Hdom.
  destruct Hinv as [Hs _]. rewrite get_node_run.
  rewrite bool_decide_false by done.
  destruct (bisect_left_spec (sorted_keys s) (hash32 key) Hs)
    as (i & Hi' & Hsplit).
  pose proof Hsplit as (Hlen & Hlt & Hge).
  exists i. rewrite Hi'. cbn zeta.
  assert (∃ k0, sorted_keys s !! 0%nat = Some k0) as [k0 Hk0].
  { apply map_choose in Hne as (q & x & Hq).
    assert (q ∈ sorted_keys s) as Hin by (apply Hdom; by eexists).
    destruct (sorted_keys s); [by apply elem_of_nil in Hin | by eexists]. }
  destruct (decide (i = length (sorted_keys s))) as [->|Hi].
  - rewrite Hk0.
    assert (occupied s k0) as [node Hnode].
    { apply Hdom. by eapply list_elem_of_lookup_2. }
    rewrite Hnode. exists k0, node.
    do 5 (split; [done|]). split; [by eexists|].
    right. split.
    + intros q Hq%Hdom. apply list_elem_of_lookup_1 in Hq as [j Hj].
      eapply Hlt; [|exact Hj]. by eapply lookup_lt_Some.
    + intros q Hq%Hdom. apply list_elem_of_lookup_1 in Hq as [j Hj].
      eapply (Sorted_lookup_le _ 0 j); [done | lia | done | done].
  - destruct (lookup_lt_is_Some_2 (sorted_keys s) i) as [k Hk]; [lia|].
    rewrite Hk.
    assert (occupied s k) as [node Hnode].
    { apply Hdom. by eapply list_elem_of_lookup_2. }
    rewrite Hnode. exists k, node.
    do 5 (split; [done|]). split; [by eexists|].
    left. split; [by eapply (Hge i) |].
    intros q Hq%Hdom Hhq. apply list_elem_of_lookup_1 in Hq as [j Hj].
    destruct (decide (j < i)%nat) as [Hji|Hji].
    + specialize (Hlt j q Hji Hj). lia.
    + eapply (Sorted_lookup_le _ i j); [done | lia | done | done].
Qed.

End get_node.

(** ** Invariants of a lifetime *)

Section lifetime.

Local Ltac fields := cbn [ring sorted_keys replicas fst snd] in *.

Lemma positions_replicas s t node :
  replicas t = replicas s → positions t node = positions s node.
Proof. unfold positions. by intros ->. Qed.

Lemma perform_replicas c s : replicas (perform c s).2 = replicas s.
Proof.
  destruct c as [node|node|key]; cbn [perform].
  - by rewrite add_node_run.
  - rewrite remove_node_run. apply unplace_loop_replicas.
  - rewrite bind_run. pose proof (get_node_state key s) as Hst.
    destruct (get_node key s) as [[o|e] t]; cbn in *; by subst.
Qed.

Lemma perform_get_node key s : (perform (GetNode key) s).2 = s.
Proof.
  cbn [perform]. rewrite bind_run. pose proof (get_node_state key s) as Hst.
  destruct (get_node key s) as [[o|e] t]; cbn in *; by subst.
Qed.

Lemma unplace_weak_inv h s : weak_inv s → weak_inv (unplace h s).2.
Proof.
  intros [Hs Hdom]. destruct (unplace_effect h s) as (_ & Hne & Hh & Hsub).
  split; [by eapply Sorted_sublist|].
  rewrite unplace_run in *. destruct (ring s !! h) as [x|] eqn:Hx; [|done].
  intros p [y Hy].
  assert (p ≠ h) as Hph.
  { intros ->. destruct (list_remove h (sorted_keys s)); cbn in Hy;
      by rewrite lookup_delete_eq in Hy. }
  assert (p ∈ sorted_keys s) as Hin.
  { apply Hdom. exists y. rewrite <- (Hne p Hph).
    destruct (list_remove h (sorted_keys s)); exact Hy. }
  destruct (list_remove h (sorted_keys s)) as [ks|] eqn:Hks; cbn; [|done].
  apply list_remove_Some in Hks as [Hperm _].
  rewrite Hperm in Hin. by apply elem_of_cons in Hin as [?|?].
Qed.

Lemma perform_weak_inv c s : weak_inv s → weak_inv (perform c s).2.
Proof.
  intros Hw. destruct c as [node|node|key].
  - cbn [perform]. rewrite add_node_run. destruct Hw as [Hs Hdom]. split; fields.
    + apply Sorted_merge_sort. apply _.
    + intros p [x Hx]. fields. rewrite merge_sort_Permutation, elem_of_app.
      rewrite lookup_set_all in Hx.
      destruct (decide (p ∈ positions s node)); [by right|].
      left. apply Hdom. by exists x.
  - cbn [perform]. rewrite remove_node_run.
    apply (for_each_preserves weak_inv); [apply unplace_weak_inv | done].
  - by rewrite perform_get_node.
Qed.

Lemma run_weak_inv cs s : weak_inv s → weak_inv (run cs s).
Proof.
  revert s. induction cs as [|c cs IH]; intros s Hw; [done|].
  cbn [run]. by apply IH, perform_weak_inv.
Qed.

Lemma unplace_strong_inv h s : strong_inv s → strong_inv (unplace h s).2.
Proof.
  intros [Hnd Hdom]. rewrite unplace_run.
  destruct (ring s !! h) as [x|] eqn:Hx; [|done].
  destruct (list_remove_elem_of h (sorted_keys s)) as [ks Hks].
  { apply Hdom. by exists x. }
  rewrite Hks. apply list_remove_Some in Hks as [Hperm _].
  rewrite Hperm in Hnd. apply NoDup_cons in Hnd as [Hh Hnd].
  split; [done|]. intros p. unfold occupied; cbn.
  destruct (decide (p = h)) as [->|Hph].
  - rewrite lookup_delete_eq. split; [done | by intros [? ?]].
  - rewrite lookup_delete_ne by done.
    rewrite <- (Hdom p), Hperm, elem_of_cons.
    split; [by right | by intros [?|?]].
Qed.

Lemma add_node_strong_inv node s :
  fresh s node → strong_inv s → strong_inv (add_node node s).2.
Proof.
  intros [Hnd Hfree] [Hks Hdom]. rewrite add_node_run. split; fields.
  - rewrite merge_sort_Permutation. apply NoDup_app. split_and!; [done| |done].
    intros p Hp%Hdom Hin. eapply Forall_forall in Hfree; [|exact Hin].
    destruct Hp as [x Hx]. congruence.
  - intros p. unfold occupied; fields.
    rewrite merge_sort_Permutation, elem_of_app, lookup_set_all.
    destruct (decide (p ∈ positions s node)) as [Hin|Hout].
    + split; [by eexists | by right].
    + rewrite (Hdom p). unfold occupied.
      split; [by intros [?|?] | by left].
Qed.

Lemma run_strong_inv cs s :
  collision_free cs s = true → strong_inv s → strong_inv (run cs s).
Proof.
  revert s. induction cs as [|c cs IH]; intros s Hcf Hi; [done|].
  cbn [collision_free run] in *. apply andb_prop in Hcf as [Hc Hcf].
  apply IH; [done|]. destruct c as [node|node|key].
  - apply bool_decide_eq_true in Hc. by apply add_node_strong_inv.
  - cbn [perform]. rewrite remove_node_run.
    apply (for_each_preserves strong_inv); [apply unplace_strong_inv | done].
  - by rewrite perform_get_node.
Qed.

Lemma perform_owned c s ms :
  owned s ms → owned (perform c s).2 (update_members c (perform c s).1 ms).
Proof.
  intros Ho p x Hx.
  rewrite (positions_replicas s) by apply perform_replicas.
  destruct c as [node|node|key].
  - cbn [perform update_members] in *.
    rewrite add_node_run in Hx. fields. rewrite lookup_set_all in Hx.
    rewrite elem_of_union, elem_of_singleton.
    destruct (decide (p ∈ positions s node)) as [Hin|Hout].
    + injection Hx as <-. split; [by left | done].
    + destruct (Ho p x Hx). split; [by right | done].
  - cbn [perform update_members] in *. rewrite remove_node_run in *.
    destruct (Ho p x (unplace_loop_lookup _ _ _ _ Hx)) as [Hm Hp].
    destruct (for_each (positions s node) unplace s) as [[[]|e] t] eqn:Hrun;
      fields; [|done].
    split; [|done]. apply elem_of_difference. split; [done|].
    intros ->%elem_of_singleton.
    pose proof (unplace_loop_returned _ _ _ p Hrun Hp). congruence.
  - rewrite perform_get_node in Hx. cbn [update_members]. by apply Ho.
Qed.


Lemma run_app cs1 cs2 s : run (cs1 ++ cs2) s = run cs2 (run cs1 s).
Proof. revert s. induction cs1 as [|c cs1 IH]; intros s; [done|]. apply IH. Qed.

Lemma for_each_add_node nodes s :
  for_each nodes add_node s = (Returned (), run (AddNode <$> nodes) s).
Proof.
  revert s. induction nodes as [|node nodes IH]; intros s; [done|].
  rewrite for_each_cons, fmap_cons. cbn [run perform].
  rewrite add_node_run. apply IH.
Qed.

Lemma init_run nodes n :
  (__init__ nodes n).2 = run (AddNode <$> initial_nodes nodes) (blank n).
Proof.
  destruct nodes as [[|node rest]|]; [done| |done].
  unfold __init__. by rewrite for_each_add_node.
Qed.

Lemma state_after_run nodes n cs :
  state_after nodes n cs = run ((AddNode <$> initial_nodes nodes) ++ cs) (blank n).
Proof. unfold state_after. by rewrite init_run, run_app. Qed.

Lemma init_owned nodes n :
  owned (__init__ nodes n).2 (list_to_set (initial_nodes nodes)).
Proof.
  rewrite init_run. generalize (initial_nodes nodes). intros l.
  assert (∀ s ms, owned s ms → owned (run (AddNode <$> l) s) (list_to_set l ∪ ms)) as H.
  { induction l as [|x l IH]; intros s ms Ho; cbn [fmap list_fmap run].
    - intros p y Hy. destruct (Ho p y Hy). split; [|done].
      apply elem_of_union. by right.
    - pose proof (perform_owned (AddNode x) s ms Ho) as Ho'.
      cbn [update_members] in Ho'. apply IH in Ho'.
      intros p y Hy. destruct (Ho' p y Hy) as [Hm ?]. split; [|done].
      rewrite list_to_set_cons.
      apply elem_of_union in Hm as [?|Hm]; [apply elem_of_union; left; by apply elem_of_union; right|].
      apply elem_of_union in Hm as [?|?]; apply elem_of_union;
        [left; apply elem_of_union; by left | by right]. }
  intros p y Hy. edestruct (H (blank n) ∅) as [Hm ?]; [|exact Hy|].
  - intros ? ? ?. done.
  - split; [|done]. apply elem_of_union in Hm as [?|Hm]; [done|].
    by apply elem_of_empty in Hm.
Qed.

Lemma weak_inv_after nodes n cs : weak_inv (state_after nodes n cs).
Proof.
  rewrite state_after_run. apply run_weak_inv.
  split; [constructor | by intros p [x ?]].
Qed.

Lemma strong_inv_after nodes n cs :
  clean nodes n cs = true → strong_inv (state_after nodes n cs).
Proof.
  intros Hc. rewrite state_after_run. apply run_strong_inv; [exact Hc|].
  split; [constructor|]. intros p. split; [by intros ?%elem_of_nil | by intros [x ?]].
Qed.


End lifetime.

(** ** Further facts about [add_node] and [remove_node] *)

Section facts.

Local Ltac fields := cbn [ring sorted_keys replicas fst snd] in *.

Lemma strong_inv_ring_inv s : weak_inv s → strong_inv s → ring_inv s.
Proof.
  intros [Hs _] [_ Hdom]. split; [done|].
  apply set_eq. intros p. by rewrite elem_of_list_to_set, elem_of_dom, Hdom.
Qed.

Lemma length_positions s node :
  length (positions s node) = Z.to_nat (replicas s).
Proof. unfold positions, range. by rewrite !length_fmap, length_seq. Qed.

Lemma positions_first s node :
  0 < replicas s →
  ∃ rest, positions s node = hash32 (vnode_key node 0) :: rest.
Proof.
  intros Hn. unfold positions, range.
  destruct (Z.to_nat (replicas s)) as [|k] eqn:Hk; [lia|].
  cbn [seq fmap list_fmap]. by eexists.
Qed.

Lemma size_set_all node ps (m : gmap Z string) :
  NoDup ps → Forall (λ p, m !! p = None) ps →
  size (set_all node ps m) = (size m + length ps)%nat.
Proof.
  unfold set_all. revert m.
  induction ps as [|p ps IH]; intros m Hnd Hfree; cbn [foldl length]; [lia|].
  apply NoDup_cons in Hnd as [Hp Hnd].
  apply Forall_cons in Hfree as [Hmp Hfree].
  rewrite IH; [|done|].
  - rewrite map_size_insert_None by done. lia.
  - apply Forall_forall. intros q Hq.
    rewrite lookup_insert_ne by (intros ->; done).
    by eapply Forall_forall in Hfree.
Qed.

Lemma set_all_present node ps (m : gmap Z string) :
  Forall (λ p, m !! p = Some node) ps → set_all node ps m = m.
Proof.
  intros Hall. apply map_eq. intros p. rewrite lookup_set_all.
  destruct (decide (p ∈ ps)) as [Hin|]; [|done].
  by eapply Forall_forall in Hall.
Qed.

(** Removing right after adding, when the positions were fresh. *)
Lemma remove_after_add node s :
  Sorted Z.le (sorted_keys s) → fresh s node →
  remove_node node (add_node node s).2 = (Returned (), s).
Proof.
  intros Hs [Hnd Hfree].
  rewrite remove_node_run, (positions_replicas s) by (by rewrite add_node_run).
  rewrite add_node_run. fields.
  set (ps := positions s node) in *.
  set (t := Self _ _ _).
  destruct (unplace_loop_returns ps t) as (s' & Hrun & Hperm); [done| |  |].
  - apply Forall_forall. intros p Hp. unfold occupied, t; fields.
    rewrite lookup_set_all, decide_True by done. by eexists.
  - unfold t; fields. rewrite merge_sort_Permutation. by apply submseteq_inserts_l.
  - rewrite Hrun. f_equal.
    pose proof (unplace_loop_replicas ps t) as Hn.
    pose proof (unplace_loop_sublist ps t) as Hsub.
    pose proof (λ p, unplace_loop_other ps t p) as Hother.
    pose proof (λ p, unplace_loop_returned ps t s' p Hrun) as Hgone.
    rewrite Hrun in Hn, Hsub, Hother. unfold t in *. fields.
    destruct s as [n m ks], s' as [n' m' ks']. fields. f_equal.
    + done.
    + apply map_eq. intros p. destruct (decide (p ∈ ps)) as [Hin|Hout].
      * rewrite Hgone by done. symmetry. by eapply Forall_forall in Hfree.
      * rewrite Hother by done. by rewrite lookup_set_all, decide_False.
    + apply (Sorted_unique Z.le).
      * eapply Sorted_sublist; [exact Hsub|]. apply Sorted_merge_sort. apply _.
      * done.
      * rewrite merge_sort_Permutation in Hperm.
        apply (Permutation_app_inv_l ps). rewrite <- Hperm.
        apply Permutation_app_comm.
Qed.

End facts.

(** ** Keys as Python strings *)

Section str.

(** "é", "€" and U+1F600 as Python encodes them. *)
Example encode_samples :
  Str.encode [0xE9] = Returned [0xC3; 0xA9] ∧
  Str.encode [0x20AC] = Returned [0xE2; 0x82; 0xAC] ∧
  Str.encode [0x1F600] = Returned [0xF0; 0x9F; 0x98; 0x80] ∧
  Str.encode [0x41; 0xD800] = Raised UnicodeEncodeError.
Proof. repeat split. Qed.

Lemma encode_char_bytes c :
  0 ≤ c ≤ 0x10FFFF → ¬ Str.surrogate c →
  ∃ b, Str.encode_char c = Returned b ∧ Forall (λ x, 0 ≤ x < 256) b.
Proof.
  intros Hc Hs. unfold Str.encode_char.
  repeat case_decide;
    first [ by destruct Hs
          | eexists; (split; [reflexivity|]);
            repeat (constructor; [Z.to_euclidean_division_equations; lia|]);
            constructor ].
Qed.

Lemma encode_bytes key :
  Str.encodable key →
  ∃ bs, Str.encode key = Returned bs ∧ Forall (λ x, 0 ≤ x < 256) bs.
Proof.
  induction 1 as [|c key [Hc Hs] _ (bs & Hbs & Hall)]; cbn [Str.encode].
  - by exists [].
  - destruct (encode_char_bytes c Hc Hs) as (b & -> & Hb). rewrite Hbs.
    exists (b ++ bs)%list. split; [done | by apply Forall_app].
Qed.

Lemma encode_char_raised c e :
  Str.encode_char c = Raised e → e = UnicodeEncodeError.
Proof. unfold Str.encode_char. repeat case_decide; congruence. Qed.

Lemma encode_surrogate key :
  Exists Str.surrogate key → Str.encode key = Raised UnicodeEncodeError.
Proof.
  induction 1 as [c key Hs|c key _ He]; cbn [Str.encode].
  - unfold Str.encode_char.
    unfold Str.surrogate in Hs. repeat case_decide; try done; lia.
  - destruct (Str.encode_char c) as [b|e] eqn:Hc; [by rewrite He|].
    by rewrite (encode_char_raised c e Hc).
Qed.

Lemma encode_string_of_bytes bs :
  Forall (λ x, 0 ≤ x < 256) bs → encode (string_of_bytes bs) = bs.
Proof.
  intros Hall. unfold encode, string_of_bytes.
  rewrite list_byte_of_string_of_list_byte, map_map.
  induction Hall as [|b bs Hb _ IH]; [done|]. cbn [map]. rewrite IH. f_equal.
  destruct (Byte.of_N (Z.to_N b)) as [x|] eqn:Hx; cbn.
  - apply Byte.to_of_N in Hx. rewrite Hx. lia.
  - apply Byte.of_N_None_iff in Hx. lia.
Qed.

Lemma encode_of_ascii key :
  Forall (λ x, x < 0x80) (encode key) → Str.encode (Str.of_ascii key) = Returned (encode key).
Proof.
  unfold Str.of_ascii, encode. generalize (map (λ b, Z.of_N (Byte.to_N b)) (list_byte_of_string key)).
  induction 1 as [|c l Hc _ IH]; [done|].
  cbn [Str.encode]. unfold Str.encode_char. rewrite decide_True by done.
  by rewrite IH.
Qed.

(** On a key that encodes to the bytes of [bkey], the methods on the
    [str] are the methods on [bkey]. *)
Lemma Str_hash_encoded key bkey s :
  Str.encode key = Returned (encode bkey) → Str._hash key s = _hash bkey s.
Proof. intros He. unfold Str._hash, _hash. rewrite bind_run. unfold lift at 1. by rewrite He. Qed.

Lemma Str_hash_raised key e s :
  Str.encode key = Raised e → Str._hash key s = (Raised e, s).
Proof. intros He. unfold Str._hash. rewrite bind_run. unfold lift at 1. by rewrite He. Qed.

Lemma Str_get_node_encoded key bkey s :
  Str.encode key = Returned (encode bkey) → Str.get_node key s = get_node bkey s.
Proof.
  intros He. unfold Str.get_node, get_node. rewrite !bind_run.
  cbn [ring_is_empty]. destruct (bool_decide (ring s = ∅)); [done|].
  rewrite !bind_run. by rewrite (Str_hash_encoded key bkey s He).
Qed.

Lemma Str_get_node_raised key e s :
  Str.encode key = Raised e → ring s ≠ ∅ → Str.get_node key s = (Raised e, s).
Proof.
  intros He Hne. unfold Str.get_node. rewrite bind_run. cbn [ring_is_empty].
  rewrite bool_decide_false by done.
  by rewrite bind_run, (Str_hash_raised key e s He).
Qed.

Lemma encodable_bkey key :
  Str.encodable key → ∃ bkey, Str.encode key = Returned (encode bkey).
Proof.
  intros (bs & Hbs & Hall)%encode_bytes.
  exists (string_of_bytes bs). by rewrite encode_string_of_bytes.
Qed.

Lemma Str_hash_run key s :
  Str._hash key s =
  (match Str.encode key with
   | Returned b => unpack_I (take 4 (MD5.digest b))
   | Raised e => Raised e
   end, s).
Proof.
  unfold Str._hash. rewrite bind_run. unfold lift.
  by destruct (Str.encode key).
Qed.

End str.

(** ** The properties of the specification *)

Local Open Scope string_scope.
Local Open Scope Z_scope.

(** C1, as amended. On a ring that satisfies the data-model invariant
    ([sorted_keys] sorted, its elements exactly the keys of [ring]) and has
    an occupied position, for a key that has a UTF-8 encoding, [get_node]
    hashes the key, finds by binary search the first index [i] of
    [sorted_keys] whose position is not below the hash, wraps to index [0]
    when there is none, and returns the owner of the position found: the
    least occupied position at or after the hash, or the least occupied
    position of all when the hash is beyond every occupied position. *)
Theorem get_node_nearest_successor key s :
  ring_inv s → ring s ≠ ∅ → Str.encodable key →
  ∃ h i p node,
    Str._hash key s = (Returned h, s) ∧
    bisect_left (sorted_keys s) h = Returned i ∧
    splits_at (sorted_keys s) h i ∧
    sorted_keys s !! (if decide (i = length (sorted_keys s)) then 0%nat else i)
      = Some p ∧
    Str.get_node key s = (Returned (Some node), s) ∧
    ring s !! p = Some node ∧
    successor s h p ∧
    ((∀ q, occupied s q → q < h) → ∀ q, occupied s q → p ≤ q).
Proof.
  intros Hinv Hne [bkey Hkey]%encodable_bkey.
  destruct (get_node_successor bkey s Hinv Hne)
    as (i & p & node & Hb & Hsp & Hp & Hget & Hnode & Hsucc).
  exists (hash32 bkey), i, p, node.
  split; [by rewrite (Str_hash_encoded key bkey), _hash_run|].
  do 3 (split; [done|]).
  split; [by rewrite (Str_get_node_encoded key bkey)|].
  do 2 (split; [done|]).
  intros Hbeyond. destruct Hsucc as [Hocc [[Hhp _]|[_ Hmin]]]; [|done].
  specialize (Hbeyond p Hocc). lia.
Qed.

Lemma get_node_nearest_successor_witness :
  ring_inv ring_abc ∧ ring ring_abc ≠ ∅ ∧ Str.encodable [0x6B; 0xE9; 0x20AC] ∧
  ∃ h i p node,
    Str._hash [0x6B; 0xE9; 0x20AC] ring_abc = (Returned h, ring_abc) ∧
    bisect_left (sorted_keys ring_abc) h = Returned i ∧
    splits_at (sorted_keys ring_abc) h i ∧
    sorted_keys ring_abc
      !! (if decide (i = length (sorted_keys ring_abc)) then 0%nat else i)
      = Some p ∧
    Str.get_node [0x6B; 0xE9; 0x20AC] ring_abc = (Returned (Some node), ring_abc) ∧
    ring ring_abc !! p = Some node ∧
    successor ring_abc h p ∧
    ((∀ q, occupied ring_abc q → q < h) → ∀ q, occupied ring_abc q → p ≤ q).
Proof.
  assert (ring_inv ring_abc) as H1 by compute_done.
  assert (ring ring_abc ≠ ∅) as H2 by compute_done.
  assert (Str.encodable [0x6B; 0xE9; 0x20AC]) as H3 by compute_done.
  split; [exact H1|]. split; [exact H2|]. split; [exact H3|].
  exact (get_node_nearest_successor [0x6B; 0xE9; 0x20AC] ring_abc H1 H2 H3).
Defined.

(** C1 as stated fails.  On the non-empty ring reached by adding two nodes
    whose labels share a position, removing one and adding a third, the
    only occupied position is that of B and the hash of the key is beyond
    it, but [get_node] raises [KeyError] on the entry the removed node left
    in [sorted_keys] instead of returning B.  And on a ring that satisfies
    the invariant, a key with a surrogate raises [UnicodeEncodeError]. *)
Lemma get_node_nearest_successor_counterexample :
  (ring ring_stale = {[ 720967041 := "B" ]} ∧
   Str.encodable (Str.of_ascii "Node_44835:0") ∧
   Str._hash (Str.of_ascii "Node_44835:0") ring_stale
     = (Returned 931545582, ring_stale) ∧
   Str.get_node (Str.of_ascii "Node_44835:0") ring_stale
     = (Raised (KeyError 931545582), ring_stale)) ∧
  (ring_inv ring_abc ∧ ring ring_abc ≠ ∅ ∧
   Str.get_node [0xD800] ring_abc = (Raised UnicodeEncodeError, ring_abc)).
Proof. split; [split; [|split; [|split]] | split; [|split]]; compute_done. Qed.




(** C3, as amended. After construction and any calls, [sorted_keys] is
    sorted ascending and holds every key of [ring].  When moreover every
    [add_node] so far found the positions of its node pairwise distinct and
    unoccupied, [sorted_keys] has no duplicates and its elements are
    exactly the keys of [ring]. *)
Theorem sorted_keys_invariant nodes n cs :
  Sorted Z.le (sorted_keys (state_after nodes n cs)) ∧
  dom (ring (state_after nodes n cs))
    ⊆ (list_to_set (sorted_keys (state_after nodes n cs)) : gset Z) ∧
  (clean nodes n cs = true →
   NoDup (sorted_keys (state_after nodes n cs)) ∧
   (list_to_set (sorted_keys (state_after nodes n cs)) : gset Z)
     = dom (ring (state_after nodes n cs))).
Proof.
  destruct (weak_inv_after nodes n cs) as [Hs Hdom].
  split; [done|]. split.
  - intros p Hp%elem_of_dom. apply elem_of_list_to_set. by apply Hdom.
  - intros Hclean. pose proof (strong_inv_after nodes n cs Hclean) as Hstrong.
    split; [apply Hstrong|].
    by apply strong_inv_ring_inv.
Qed.

Lemma sorted_keys_invariant_witness :
  clean (Some ["A"; "B"; "C"]) 2 calls_churn = true ∧
  NoDup (sorted_keys (state_after (Some ["A"; "B"; "C"]) 2 calls_churn)) ∧
  (list_to_set (sorted_keys (state_after (Some ["A"; "B"; "C"]) 2 calls_churn)) : gset Z)
    = dom (ring (state_after (Some ["A"; "B"; "C"]) 2 calls_churn)).
Proof.
  assert (clean (Some ["A"; "B"; "C"]) 2 calls_churn = true) as Hc by compute_done.
  split; [exact Hc|].
  exact (proj2 (proj2 (sorted_keys_invariant (Some ["A"; "B"; "C"]) 2 calls_churn)) Hc).
Defined.

(** C3 as stated fails: constructing a ring from two nodes whose labels
    share a position leaves that position twice in [sorted_keys], and after
    one of the two is removed [sorted_keys] still holds it while [ring] is
    empty. *)
Lemma sorted_keys_invariant_counterexample :
  sorted_keys ring_both = [931545582; 931545582] ∧
  ¬ NoDup (sorted_keys ring_both) ∧
  (list_to_set (sorted_keys (state_after (Some ["Node_44835"; "Node_70291"]) 1
                               [RemoveNode "Node_70291"])) : gset Z)
    ≠ dom (ring (state_after (Some ["Node_44835"; "Node_70291"]) 1
                   [RemoveNode "Node_70291"])).
Proof. split; [compute_done|]. split; compute_done. Qed.

(** C4, as amended. On an instance whose [sorted_keys] is sorted, for a
    node whose positions are pairwise distinct and unoccupied, [add_node]
    followed at once by [remove_node] returns without error and leaves the
    instance exactly as it was. *)
Theorem add_then_remove_restores node s :
  Sorted Z.le (sorted_keys s) → fresh s node →
  (add_node node ;; remove_node node) s = (Returned (), s).
Proof.
  intros Hs Hfresh. rewrite bind_run.
  pose proof (remove_after_add node s Hs Hfresh) as Hrem.
  rewrite add_node_run in *. exact Hrem.
Qed.

Lemma add_then_remove_restores_witness :
  Sorted Z.le (sorted_keys ring_abc) ∧ fresh ring_abc "D" ∧
  (add_node "D" ;; remove_node "D") ring_abc = (Returned (), ring_abc).
Proof.
  assert (Sorted Z.le (sorted_keys ring_abc)) as Hs by compute_done.
  assert (fresh ring_abc "D") as Hf by compute_done.
  split; [exact Hs|]. split; [exact Hf|].
  exact (add_then_remove_restores "D" ring_abc Hs Hf).
Defined.

(** C4 as stated fails: on the ring that holds only ["Node_44835"], adding
    and then removing ["Node_70291"], whose label shares the position,
    returns without error and leaves the ring empty. *)
Lemma add_then_remove_restores_counterexample :
  ring ring_first = {[ 931545582 := "Node_44835" ]} ∧
  (add_node "Node_70291" ;; remove_node "Node_70291") ring_first
    = (Returned (), Self 1 ∅ [931545582]) ∧
  (add_node "Node_70291" ;; remove_node "Node_70291") ring_first
    ≠ (Returned (), ring_first).
Proof. split; [compute_done|]. split; compute_done. Qed.

(** C5. For a node whose positions are pairwise distinct and unoccupied
    (it is not on the ring and no label collides), and a non-negative
    replica count, [add_node] returns with exactly the pairs
    [(hash(node:i), node)], [0 <= i < replicas], added to [ring], the same
    positions added to [sorted_keys], which is sorted, and both the number
    of keys of [ring] and the length of [sorted_keys] larger by
    [replicas]. *)
Theorem add_node_inserts node s :
  0 ≤ replicas s → fresh s node →
  ∃ s',
    add_node node s = (Returned (), s') ∧
    replicas s' = replicas s ∧
    positions s node = (λ i, hash32 (node ++ ":" ++ str i)) <$> range (replicas s) ∧
    (∀ p, ring s' !! p
          = if decide (p ∈ positions s node) then Some node else ring s !! p) ∧
    Sorted Z.le (sorted_keys s') ∧
    sorted_keys s' ≡ₚ sorted_keys s ++ positions s node ∧
    Z.of_nat (size (ring s')) = Z.of_nat (size (ring s)) + replicas s ∧
    Z.of_nat (length (sorted_keys s')) = Z.of_nat (length (sorted_keys s)) + replicas s.
Proof.
  intros Hn [Hnd Hfree]. eexists. split; [apply add_node_run|].
  cbn [replicas ring sorted_keys].
  split; [done|]. split; [done|]. split; [apply lookup_set_all|].
  split; [apply Sorted_merge_sort; apply _|].
  split; [apply merge_sort_Permutation|]. split.
  - rewrite size_set_all, length_positions by done. lia.
  - rewrite merge_sort_Permutation, length_app, length_positions. lia.
Qed.

Lemma add_node_inserts_witness :
  0 ≤ replicas ring_a3 ∧ fresh ring_a3 "B" ∧
  ∃ s', add_node "B" ring_a3 = (Returned (), s') ∧
        size (ring s') = 6%nat ∧ length (sorted_keys s') = 6%nat.
Proof.
  assert (0 ≤ replicas ring_a3) as Hn by compute_done.
  assert (fresh ring_a3 "B") as Hf by compute_done.
  split; [exact Hn|]. split; [exact Hf|].
  destruct (add_node_inserts "B" ring_a3 Hn Hf)
    as (s' & Hadd & _ & _ & _ & _ & _ & Hsize & Hlen).
  exists s'. split; [exact Hadd|].
  change (size (ring ring_a3)) with 3%nat in Hsize.
  change (length (sorted_keys ring_a3)) with 3%nat in Hlen.
  change (replicas ring_a3) with 3 in Hsize, Hlen.
  split; lia.
Defined.

(** C6. On an instance whose [ring] has no key, [get_node] returns [None]
    for every key; it raises nothing and leaves the instance as it is. *)
Theorem get_node_empty key s :
  ring s = ∅ → get_node key s = (Returned None, s).
Proof.
  intros Hempty. rewrite get_node_run. by rewrite bool_decide_true.
Qed.

Lemma get_node_empty_witness :
  ring (blank 100) = ∅ ∧ get_node "k" (blank 100) = (Returned None, blank 100).
Proof.
  assert (ring (blank 100) = ∅) as He by reflexivity.
  split; [exact He|]. exact (get_node_empty "k" (blank 100) He).
Defined.

(** C7, as amended. [add_node] of a node that is already present is not
    rejected: it returns, leaves [ring] as it is and puts each position of
    the node into [sorted_keys] once more.  [remove_node] of a node whose
    first label hashes to an unoccupied position raises [KeyError] with
    that position and leaves the instance as it is, when the replica count
    is positive. *)
Theorem precondition_violations node s :
  (present s node →
   add_node node s =
   (Returned (),
    Self (replicas s) (ring s)
         (merge_sort Z.le (sorted_keys s ++ positions s node)))) ∧
  (0 < replicas s → ring s !! hash32 (vnode_key node 0) = None →
   remove_node node s = (Raised (KeyError (hash32 (vnode_key node 0))), s)).
Proof.
  split.
  - intros Hpresent. rewrite add_node_run. by rewrite set_all_present.
  - intros Hn Hfree. rewrite remove_node_run.
    destruct (positions_first s node Hn) as [rest ->].
    by rewrite for_each_cons, unplace_run, Hfree.
Qed.

Lemma precondition_violations_witness :
  (present ring_a3 "A" ∧
   add_node "A" ring_a3 =
   (Returned (),
    Self 3 (ring ring_a3)
         [447224437; 447224437; 1474421281; 1474421281; 3602110437; 3602110437])) ∧
  (0 < replicas ring_a3 ∧ ring ring_a3 !! hash32 (vnode_key "B" 0) = None ∧
   remove_node "B" ring_a3 = (Raised (KeyError 720967041), ring_a3)).
Proof.
  assert (present ring_a3 "A") as Hp by compute_done.
  assert (0 < replicas ring_a3) as Hn by compute_done.
  assert (ring ring_a3 !! hash32 (vnode_key "B" 0) = None) as Hf by compute_done.
  destruct (precondition_violations "A" ring_a3) as [Hadd _].
  destruct (precondition_violations "B" ring_a3) as [_ Hrem].
  split.
  - split; [exact Hp|]. rewrite (Hadd Hp). compute_done.
  - split; [exact Hn|]. split; [exact Hf|]. rewrite (Hrem Hn Hf). compute_done.
Defined.

(** C7 as stated fails: [add_node] of a node that is present returns
    without error and changes the instance, and [remove_node] of a node
    that was never added returns without error when its label shares a
    position with a node that is present, removing that node's position. *)
Lemma precondition_violations_counterexample :
  (present ring_a3 "A" ∧
   (add_node "A" ring_a3).1 = Returned () ∧
   (add_node "A" ring_a3).2 ≠ ring_a3) ∧
  (¬ present ring_first "Node_70291" ∧
   remove_node "Node_70291" ring_first = (Returned (), blank 1)).
Proof. split; [split; [|split]|split]; compute_done. Qed.

(** C8, as amended. When a label of the added node hashes to a position
    that already has an owner, [add_node] returns without any error, the
    position belongs to the added node afterwards, and the position is put
    into [sorted_keys] once more. *)
Theorem add_node_overwrites node s p other :
  p ∈ positions s node → ring s !! p = Some other →
  ∃ s',
    add_node node s = (Returned (), s') ∧
    ring s' !! p = Some node ∧
    sorted_keys s' ≡ₚ sorted_keys s ++ positions s node.
Proof.
  intros Hp _. eexists. split; [apply add_node_run|].
  cbn [ring sorted_keys]. split.
  - by rewrite lookup_set_all, decide_True.
  - apply merge_sort_Permutation.
Qed.

Lemma add_node_overwrites_witness :
  931545582 ∈ positions ring_first "Node_70291" ∧
  ring ring_first !! 931545582 = Some "Node_44835" ∧
  ∃ s',
    add_node "Node_70291" ring_first = (Returned (), s') ∧
    ring s' !! 931545582 = Some "Node_70291" ∧
    sorted_keys s' ≡ₚ sorted_keys ring_first ++ positions ring_first "Node_70291".
Proof.
  assert (931545582 ∈ positions ring_first "Node_70291") as Hp by compute_done.
  assert (ring ring_first !! 931545582 = Some "Node_44835") as Ho by compute_done.
  split; [exact Hp|]. split; [exact Ho|].
  exact (add_node_overwrites "Node_70291" ring_first 931545582 "Node_44835" Hp Ho).
Defined.

(** C8 as stated fails: the labels ["Node_44835:0"] and ["Node_70291:0"]
    are distinct and hash to the same position; adding the second node to
    the ring that holds the first returns without error and the position
    has changed owner. *)
Lemma add_node_overwrites_counterexample :
  vnode_key "Node_44835" 0 ≠ vnode_key "Node_70291" 0 ∧
  hash32 (vnode_key "Node_44835" 0) = hash32 (vnode_key "Node_70291" 0) ∧
  ring ring_first !! 931545582 = Some "Node_44835" ∧
  (add_node "Node_70291" ring_first).1 = Returned () ∧
  ring (add_node "Node_70291" ring_first).2 !! 931545582 = Some "Node_70291".
Proof. split; [|split; [|split; [|split]]]; compute_done. Qed.

(** C9, as amended. [_hash] does not depend on the instance and leaves it
    as it is, so two evaluations on the same key agree.  On a key that has
    a UTF-8 encoding (no surrogate code point) it returns an integer in
    the range [0, 2^32); on a key with a surrogate it raises
    [UnicodeEncodeError]. *)
Theorem _hash_deterministic_32bit key s1 s2 :
  (Str._hash key s1).1 = (Str._hash key s2).1 ∧
  (Str._hash key s1).2 = s1 ∧
  (Str.encodable key →
   ∃ h, Str._hash key s1 = (Returned h, s1) ∧ 0 ≤ h < 2 ^ 32) ∧
  (Exists Str.surrogate key →
   Str._hash key s1 = (Raised UnicodeEncodeError, s1)).
Proof.
  split; [by rewrite !Str_hash_run|]. split; [by rewrite Str_hash_run|]. split.
  - intros [bkey Hkey]%encodable_bkey.
    exists (hash32 bkey). rewrite (Str_hash_encoded key bkey), _hash_run by done.
    split; [done | apply hash32_range].
  - intros Hs%encode_surrogate. by apply Str_hash_raised.
Qed.

Lemma _hash_deterministic_32bit_witness :
  Str.encodable [0x6B; 0xE9; 0x20AC] ∧
  ∃ h, Str._hash [0x6B; 0xE9; 0x20AC] (blank 100) = (Returned h, blank 100) ∧
       0 ≤ h < 2 ^ 32.
Proof.
  assert (Str.encodable [0x6B; 0xE9; 0x20AC]) as H1 by compute_done.
  split; [exact H1|].
  exact (proj1 (proj2 (proj2
    (_hash_deterministic_32bit [0x6B; 0xE9; 0x20AC] (blank 100) (blank 100)))) H1).
Defined.

(** C9 as stated fails: the string of the letter k followed by the lone
    surrogate U+D800 has no hash, [key.encode('utf-8')] raises. *)
Lemma _hash_deterministic_32bit_counterexample :
  Str._hash [0x6B; 0xD800] (blank 100) = (Raised UnicodeEncodeError, blank 100) ∧
  ¬ ∃ h, Str._hash [0x6B; 0xD800] (blank 100) = (Returned h, blank 100).
Proof.
  assert (Str._hash [0x6B; 0xD800] (blank 100)
          = (Raised UnicodeEncodeError, blank 100)) as Hraise by compute_done.
  split; [exact Hraise|]. rewrite Hraise. by intros [h ?].
Qed.

(** C10. [get_node] leaves the instance as it was, whatever it returns or
    raises: [ring], [sorted_keys] and [replicas] are unchanged. *)
Theorem get_node_pure key s :
  (get_node key s).2 = s ∧
  ring (get_node key s).2 = ring s ∧
  sorted_keys (get_node key s).2 = sorted_keys s ∧
  replicas (get_node key s).2 = replicas s.
Proof. by rewrite get_node_state. Qed.

(** ** Further properties of the code *)

Lemma bisect_loop_total a x lo hi :
  (lo ≤ hi ≤ length a)%nat →
  ∃ i, bisect_loop a x lo hi = Returned i ∧ (lo ≤ i ≤ hi)%nat.
Proof.
  funelim (bisect_loop a x lo hi); intros Hb.
  - exists lo. split; [reflexivity | lia].
  - exfalso.
    match goal with Hl : (?lo < ?hi)%nat |- _ => pose proof (mid_bounds lo hi Hl) end.
    match goal with E : a !! _ = None |- _ => apply lookup_ge_None in E end.
    lia.
  - match goal with Hl : (?lo < ?hi)%nat |- _ => pose proof (mid_bounds lo hi Hl) end.
    match goal with
    | IH : _ → ∃ _, bisect_loop _ _ _ _ = _ ∧ _ |- _ =>
        destruct IH as (i & Hi & ?); [lia|]
    end.
    exists i. split; [done | lia].
  - match goal with Hl : (?lo < ?hi)%nat |- _ => pose proof (mid_bounds lo hi Hl) end.
    match goal with
    | IH : _ → ∃ _, bisect_loop _ _ _ _ = _ ∧ _ |- _ =>
        destruct IH as (i & Hi & ?); [lia|]
    end.
    exists i. split; [done | lia].
Qed.

(** X1. [bisect_left] returns on every list, sorted or not: it never
    indexes out of range, and the index it returns is between [0] and the
    length of the list. *)
Theorem bisect_left_in_range a x :
  ∃ i, bisect_left a x = Returned i ∧ (i ≤ length a)%nat.
Proof.
  destruct (bisect_loop_total a x 0 (length a)) as (i & Hi & ?); [lia|].
  exists i. split; [exact Hi | lia].
Qed.

Section outcomes.

Local Ltac fields := cbn [ring sorted_keys replicas fst snd] in *.




End outcomes.



Section movement.

Lemma ConsistentHash_eq s t :
  replicas s = replicas t → ring s = ring t → sorted_keys s = sorted_keys t →
  s = t.
Proof. destruct s, t; cbn; by intros -> -> ->. Qed.

Local Ltac fields := cbn [ring sorted_keys replicas fst snd] in *.

Lemma ring_inv_weak_inv s : ring_inv s → weak_inv s.
Proof.
  intros Hinv. split; [apply Hinv|]. intros p. by apply ring_inv_occupied.
Qed.

Lemma ring_inv_strong_inv s : ring_inv s → NoDup (sorted_keys s) → strong_inv s.
Proof. intros Hinv Hnd. split; [done|]. intros p. by apply ring_inv_occupied. Qed.

Lemma size_ring s :
  ring_inv s → NoDup (sorted_keys s) → size (ring s) = length (sorted_keys s).
Proof.
  intros [_ Hdom] Hnd. by rewrite <- size_dom, <- Hdom, size_list_to_set.
Qed.

Lemma successor_unique s h p q : successor s h p → successor s h q → p = q.
Proof.
  intros [Hp [[Hhp Hpmin]|[Hpall Hpmin]]] [Hq [[Hhq Hqmin]|[Hqall Hqmin]]].
  - specialize (Hpmin q Hq Hhq). specialize (Hqmin p Hp Hhp). lia.
  - specialize (Hqall p Hp). lia.
  - specialize (Hpall q Hq). lia.
  - specialize (Hpmin q Hq). specialize (Hqmin p Hp). lia.
Qed.

(** On an instance that satisfies the invariant, the owner of the
    successor of the hash is what [get_node] returns. *)
Lemma get_node_of_successor key s p node :
  ring_inv s → successor s (hash32 key) p → ring s !! p = Some node →
  get_node key s = (Returned (Some node), s).
Proof.
  intros Hinv Hsucc Hnode.
  destruct (get_node_successor key s Hinv)
    as (_ & q & x & _ & _ & _ & Hget & Hx & Hq).
  { intros He. rewrite He in Hnode. by rewrite lookup_empty in Hnode. }
  rewrite (successor_unique _ _ _ _ Hq Hsucc) in Hx. congruence.
Qed.

(** A returned node is the owner of the successor of the hash. *)
Lemma get_node_returned_successor key s node :
  ring_inv s → get_node key s = (Returned (Some node), s) →
  ∃ p, successor s (hash32 key) p ∧ ring s !! p = Some node.
Proof.
  intros Hinv Hget.
  destruct (get_node_successor key s Hinv)
    as (_ & q & x & _ & _ & _ & Hget' & Hx & Hq).
  { intros He. rewrite (get_node_empty key s He) in Hget. done. }
  exists q. split; [done|]. congruence.
Qed.

(** The successor stays the successor when positions other than it are
    vacated. *)
Lemma successor_shrink s t h p :
  successor s h p → occupied t p → (∀ q, occupied t q → occupied s q) →
  successor t h p.
Proof.
  intros [_ Hcase] Hp Hsub. split; [done|].
  destruct Hcase as [[Hhp Hmin]|[Hall Hmin]]; [left|right].
  - split; [done|]. intros q Hq Hhq. apply Hmin; [by apply Hsub | done].
  - split; intros q Hq; [apply Hall | apply Hmin]; by apply Hsub.
Qed.

Lemma add_node_ring_inv node s : ring_inv s → ring_inv (add_node node s).2.
Proof.
  intros [Hs Hdom]. rewrite add_node_run. split; fields.
  - apply Sorted_merge_sort. apply _.
  - apply set_eq. intros p.
    rewrite elem_of_list_to_set, merge_sort_Permutation, elem_of_app.
    rewrite elem_of_dom, lookup_set_all.
    rewrite <- (elem_of_list_to_set (C := gset Z)), Hdom, elem_of_dom.
    destruct (decide (p ∈ positions s node)) as [Hin|Hout].
    + split; [by eexists | by right].
    + split; [by intros [?|?] | by left].
Qed.

Lemma remove_node_present_returns node s :
  ring_inv s → present s node → NoDup (positions s node) →
  ∃ s', remove_node node s = (Returned (), s') ∧
        replicas s' = replicas s ∧
        (∀ p, ring s' !! p
              = if decide (p ∈ positions s node) then None else ring s !! p) ∧
        sorted_keys s ≡ₚ positions s node ++ sorted_keys s' ∧
        Sorted Z.le (sorted_keys s') ∧
        (NoDup (sorted_keys s) → ring_inv s' ∧ NoDup (sorted_keys s')).
Proof.
  intros Hinv Hpresent Hnd. rewrite remove_node_run.
  set (ps := positions s node) in *.
  assert (Forall (occupied s) ps) as Hocc.
  { eapply Forall_impl; [exact Hpresent|]. intros p Hp. by exists node. }
  destruct (unplace_loop_returns ps s) as (s' & Hrun & Hperm); [done|done| |].
  { apply NoDup_submseteq; [done|]. intros p Hp.
    apply (ring_inv_occupied s p Hinv). by eapply Forall_forall in Hocc. }
  exists s'. split; [done|].
  pose proof (unplace_loop_replicas ps s) as Hn.
  pose proof (unplace_loop_sublist ps s) as Hsub.
  pose proof (λ p, unplace_loop_other ps s p) as Hother.
  pose proof (λ p, unplace_loop_returned ps s s' p Hrun) as Hgone.
  rewrite Hrun in Hn, Hsub, Hother. fields.
  split; [done|]. split; [|split; [done|split]].
  - intros p. destruct (decide (p ∈ ps)); [by apply Hgone | by apply Hother].
  - eapply Sorted_sublist; [exact Hsub | apply Hinv].
  - intros Hndk.
    assert (strong_inv s') as Hstrong.
    { replace s' with (for_each ps unplace s).2 by (by rewrite Hrun).
      apply (for_each_preserves strong_inv); [apply unplace_strong_inv|].
      by apply ring_inv_strong_inv. }
    split; [|apply Hstrong].
    apply strong_inv_ring_inv; [|done].
    replace s' with (for_each ps unplace s).2 by (by rewrite Hrun).
    apply (for_each_preserves weak_inv); [apply unplace_weak_inv|].
    by apply ring_inv_weak_inv.
Qed.

End movement.

(** X4. On a ring that satisfies the invariant and has no duplicate in
    [sorted_keys], [remove_node] of a node that owns all its positions,
    these being pairwise distinct, returns; [ring] loses exactly the
    positions of the node, [sorted_keys] loses exactly one entry for each,
    the invariant still holds, and both sizes drop by [replicas]. *)
Theorem remove_node_deletes node s :
  ring_inv s → NoDup (sorted_keys s) →
  present s node → NoDup (positions s node) → 0 ≤ replicas s →
  ∃ s',
    remove_node node s = (Returned (), s') ∧
    replicas s' = replicas s ∧
    (∀ p, ring s' !! p
          = if decide (p ∈ positions s node) then None else ring s !! p) ∧
    sorted_keys s ≡ₚ positions s node ++ sorted_keys s' ∧
    ring_inv s' ∧ NoDup (sorted_keys s') ∧
    Z.of_nat (size (ring s)) = Z.of_nat (size (ring s')) + replicas s ∧
    Z.of_nat (length (sorted_keys s)) = Z.of_nat (length (sorted_keys s')) + replicas s.
Proof.
  intros Hinv Hndk Hpresent Hnd Hn.
  destruct (remove_node_present_returns node s Hinv Hpresent Hnd)
    as (s' & Hrun & Hrep & Hlook & Hperm & _ & Hafter).
  destruct (Hafter Hndk) as [Hinv' Hndk'].
  exists s'. do 6 (split; [done|]).
  assert (length (sorted_keys s)
          = (Z.to_nat (replicas s) + length (sorted_keys s'))%nat) as Hlen.
  { by rewrite Hperm, length_app, length_positions. }
  rewrite !size_ring by done. lia.
Qed.

Lemma remove_node_deletes_witness :
  ring_inv ring_abc ∧ NoDup (sorted_keys ring_abc) ∧
  present ring_abc "B" ∧ NoDup (positions ring_abc "B") ∧ 0 ≤ replicas ring_abc ∧
  ∃ s', remove_node "B" ring_abc = (Returned (), s') ∧
        Z.of_nat (size (ring s')) = 4 ∧ ring_inv s'.
Proof.
  assert (ring_inv ring_abc) as H1 by compute_done.
  assert (NoDup (sorted_keys ring_abc)) as H2 by compute_done.
  assert (present ring_abc "B") as H3 by compute_done.
  assert (NoDup (positions ring_abc "B")) as H4 by compute_done.
  assert (0 ≤ replicas ring_abc) as H5 by compute_done.
  split; [exact H1|]. split; [exact H2|]. split; [exact H3|].
  split; [exact H4|]. split; [exact H5|].
  destruct (remove_node_deletes "B" ring_abc H1 H2 H3 H4 H5)
    as (s' & Hrun & _ & _ & _ & Hinv & _ & Hsize & _).
  exists s'. split; [exact Hrun|]. split; [|exact Hinv].
  assert (Z.of_nat (size (ring ring_abc)) = 6) as Hsix by compute_done.
  assert (replicas ring_abc = 2) as Htwo by compute_done.
  lia.
Defined.

(** Removing a present node leaves the successor of a hash in place when
    it is not one of the node's positions. *)
Lemma remove_node_successor node s h p :
  ring_inv s → NoDup (sorted_keys s) →
  present s node → NoDup (positions s node) →
  successor s h p → p ∉ positions s node →
  ∃ s', remove_node node s = (Returned (), s') ∧ ring_inv s' ∧
        successor s' h p ∧ ring s' !! p = ring s !! p.
Proof.
  intros Hinv Hndk Hpresent Hnd Hsucc Hout.
  destruct (remove_node_present_returns node s Hinv Hpresent Hnd)
    as (s' & Hrun & _ & Hlook & _ & _ & Hafter).
  destruct (Hafter Hndk) as [Hinv' _].
  exists s'. split; [done|]. split; [done|].
  assert (ring s' !! p = ring s !! p) as Hp by (by rewrite Hlook, decide_False).
  split; [|done].
  eapply successor_shrink; [exact Hsucc | |].
  - unfold occupied. rewrite Hp. apply Hsucc.
  - intros q [x Hx]. rewrite Hlook in Hx.
    destruct (decide (q ∈ positions s node)); [done | by exists x].
Qed.

(** X5. Removing a node moves no key of another node: on a ring as in
    X4, a key that [get_node] sends to a node other than the removed one
    is sent to the same node after [remove_node]. *)
Theorem remove_node_keeps_other_keys node s key other :
  ring_inv s → NoDup (sorted_keys s) →
  present s node → NoDup (positions s node) →
  get_node key s = (Returned (Some other), s) → other ≠ node →
  ∃ s', remove_node node s = (Returned (), s') ∧
        get_node key s' = (Returned (Some other), s').
Proof.
  intros Hinv Hndk Hpresent Hnd Hget Hne.
  destruct (get_node_returned_successor key s other Hinv Hget) as (p & Hsucc & Hp).
  assert (p ∉ positions s node) as Hout.
  { intros Hin. eapply Forall_forall in Hpresent; [|exact Hin]. congruence. }
  destruct (remove_node_successor node s _ p Hinv Hndk Hpresent Hnd Hsucc Hout)
    as (s' & Hrun & Hinv' & Hsucc' & Hp').
  exists s'. split; [done|].
  apply (get_node_of_successor key s' p other Hinv' Hsucc'). congruence.
Qed.

Lemma remove_node_keeps_other_keys_witness :
  ring_inv ring_abc ∧ NoDup (sorted_keys ring_abc) ∧
  present ring_abc "C" ∧ NoDup (positions ring_abc "C") ∧
  get_node "k" ring_abc = (Returned (Some "B"), ring_abc) ∧ "B" ≠ "C" ∧
  ∃ s', remove_node "C" ring_abc = (Returned (), s') ∧
        get_node "k" s' = (Returned (Some "B"), s').
Proof.
  assert (ring_inv ring_abc) as H1 by compute_done.
  assert (NoDup (sorted_keys ring_abc)) as H2 by compute_done.
  assert (present ring_abc "C") as H3 by compute_done.
  assert (NoDup (positions ring_abc "C")) as H4 by compute_done.
  assert (get_node "k" ring_abc = (Returned (Some "B"), ring_abc)) as H5
    by compute_done.
  assert ("B" ≠ "C") as H6 by compute_done.
  split; [exact H1|]. split; [exact H2|]. split; [exact H3|].
  split; [exact H4|]. split; [exact H5|]. split; [exact H6|].
  exact (remove_node_keeps_other_keys "C" ring_abc "k" "B" H1 H2 H3 H4 H5 H6).
Defined.

(** X6. Adding a node moves keys only to it: on a ring that satisfies the
    invariant, a key that [get_node] sends to a node is sent, after
    [add_node], either to the same node or to the added one. *)
Theorem add_node_moves_only_to_new node s key old :
  ring_inv s → get_node key s = (Returned (Some old), s) →
  ∃ s' new, add_node node s = (Returned (), s') ∧
            get_node key s' = (Returned (Some new), s') ∧
            (new = old ∨ new = node).
Proof.
  intros Hinv Hget.
  destruct (get_node_returned_successor key s old Hinv Hget) as (p & Hsucc & Hp).
  pose proof (add_node_ring_inv node s Hinv) as Hinv'.
  pose proof (add_node_run node s) as Hrun.
  destruct (add_node node s) as [o s'] eqn:Hadd. injection Hrun as -> Hs'.
  cbn [snd] in Hinv'.
  assert (∀ q, ring s' !! q
               = if decide (q ∈ positions s node) then Some node else ring s !! q)
    as Hlook.
  { intros q. rewrite Hs'. cbn [ring]. apply lookup_set_all. }
  destruct (get_node_successor key s' Hinv')
    as (_ & p' & new & _ & _ & _ & Hget' & Hnew & Hsucc').
  { intros He. specialize (Hlook p). rewrite He, lookup_empty in Hlook.
    destruct (decide (p ∈ positions s node)); congruence. }
  exists s', new. split; [done|]. split; [done|].
  rewrite Hlook in Hnew.
  destruct (decide (p' ∈ positions s node)) as [Hin|Hout]; [right; congruence|].
  left. enough (p' = p) by congruence.
  apply (successor_unique s (hash32 key)); [|done].
  eapply successor_shrink; [exact Hsucc' | by eexists |].
  intros q [x Hx]. unfold occupied. rewrite Hlook.
  destruct (decide (q ∈ positions s node)); by eexists.
Qed.

Lemma add_node_moves_only_to_new_witness :
  ring_inv ring_abc ∧
  get_node "k2" ring_abc = (Returned (Some "C"), ring_abc) ∧
  ∃ s' new, add_node "D" ring_abc = (Returned (), s') ∧
            get_node "k2" s' = (Returned (Some new), s') ∧
            (new = "C" ∨ new = "D").
Proof.
  assert (ring_inv ring_abc) as H1 by compute_done.
  assert (get_node "k2" ring_abc = (Returned (Some "C"), ring_abc)) as H2
    by compute_done.
  split; [exact H1|]. split; [exact H2|].
  exact (add_node_moves_only_to_new "D" ring_abc "k2" "C" H1 H2).
Defined.

(** X14. Removing a node and adding it again gives back the same instance:
    on a ring that satisfies the invariant and has no duplicate in
    [sorted_keys], for a node that owns all its positions, these being
    pairwise distinct, [remove_node] followed at once by [add_node] returns
    without error and leaves the instance exactly as it was. *)
Theorem remove_then_add_restores node s :
  ring_inv s → NoDup (sorted_keys s) →
  present s node → NoDup (positions s node) →
  (remove_node node ;; add_node node) s = (Returned (), s).
Proof.
  intros Hinv Hndk Hpresent Hnd. rewrite bind_run.
  destruct (remove_node_present_returns node s Hinv Hpresent Hnd)
    as (s' & -> & Hrep & Hlook & Hperm & _ & _).
  rewrite add_node_run, (positions_replicas s s') by done. f_equal.
  apply ConsistentHash_eq; cbn [replicas ring sorted_keys].
  - done.
  - apply map_eq. intros p. rewrite lookup_set_all, Hlook.
    destruct (decide (p ∈ positions s node)) as [Hin|Hout]; [|done].
    symmetry. by eapply Forall_forall in Hpresent.
  - apply (Sorted_unique Z.le).
    + apply Sorted_merge_sort. apply _.
    + apply Hinv.
    + rewrite merge_sort_Permutation, Hperm. apply Permutation_app_comm.
Qed.

Lemma remove_then_add_restores_witness :
  ring_inv ring_abc ∧ NoDup (sorted_keys ring_abc) ∧
  present ring_abc "B" ∧ NoDup (positions ring_abc "B") ∧
  (remove_node "B" ;; add_node "B") ring_abc = (Returned (), ring_abc).
Proof.
  assert (ring_inv ring_abc) as H1 by compute_done.
  assert (NoDup (sorted_keys ring_abc)) as H2 by compute_done.
  assert (present ring_abc "B") as H3 by compute_done.
  assert (NoDup (positions ring_abc "B")) as H4 by compute_done.
  split; [exact H1|]. split; [exact H2|]. split; [exact H3|]. split; [exact H4|].
  exact (remove_then_add_restores "B" ring_abc H1 H2 H3 H4).
Defined.

Section construction.

Local Ltac fields := cbn [ring sorted_keys replicas fst snd] in *.

Lemma run_replicas cs s : replicas (run cs s) = replicas s.
Proof.
  revert s. induction cs as [|c cs IH]; intros s; [done|].
  cbn [run]. by rewrite IH, perform_replicas.
Qed.

Lemma positions_nonpositive s node : replicas s ≤ 0 → positions s node = [].
Proof.
  intros Hn. unfold positions, range.
  by replace (Z.to_nat (replicas s)) with 0%nat by lia.
Qed.

Lemma perform_blank c n : n ≤ 0 → (perform c (blank n)).2 = blank n.
Proof.
  intros Hn. destruct c as [node|node|key].
  - cbn [perform]. rewrite add_node_run, positions_nonpositive by done.
    reflexivity.
  - cbn [perform]. rewrite remove_node_run, positions_nonpositive by done.
    reflexivity.
  - apply perform_get_node.
Qed.

Lemma run_blank cs n : n ≤ 0 → run cs (blank n) = blank n.
Proof.
  intros Hn. induction cs as [|c cs IH]; [done|].
  cbn [run]. by rewrite perform_blank.
Qed.

Lemma run_adds_length l s :
  length (sorted_keys (run (AddNode <$> l) s))
  = (length (sorted_keys s) + Z.to_nat (replicas s) * length l)%nat.
Proof.
  revert s. induction l as [|x l IH]; intros s; cbn [fmap list_fmap run length].
  - lia.
  - rewrite IH, perform_replicas. cbn [perform]. rewrite add_node_run. fields.
    rewrite merge_sort_Permutation, length_app, length_positions. lia.
Qed.

Lemma positions_fmap_replicas s t (l : list string) :
  replicas t = replicas s → l ≫= positions t = l ≫= positions s.
Proof.
  intros Hn. induction l as [|x l IH]; [done|].
  cbn. by rewrite IH, (positions_replicas s t).
Qed.

(** A run of additions is free of collisions exactly when all the
    positions put on the ring are distinct and were unoccupied. *)
Lemma collision_free_adds l s :
  collision_free (AddNode <$> l) s = true ↔
  NoDup (l ≫= positions s) ∧ Forall (λ p, ring s !! p = None) (l ≫= positions s).
Proof.
  revert s. induction l as [|x l IH]; intros s.
  - cbn. split; [intros _; split; constructor | done].
  - cbn [fmap list_fmap collision_free].
    rewrite andb_true_iff, bool_decide_eq_true, IH.
    rewrite (positions_fmap_replicas s) by apply perform_replicas.
    cbn [perform]. rewrite add_node_run. fields.
    change ((x :: l) ≫= positions s) with (positions s x ++ (l ≫= positions s))%list.
    rewrite NoDup_app, Forall_app. unfold fresh.
    rewrite !Forall_forall. setoid_rewrite lookup_set_all.
    split.
    + intros [[Hnd Hfree] [Hndl Hfreel]]. split_and!; try done.
      * intros p Hp Hin. specialize (Hfreel p Hin).
        by rewrite decide_True in Hfreel.
      * intros p Hin. specialize (Hfreel p Hin).
        by destruct (decide (p ∈ positions s x)).
    + intros [(Hnd & Hdisj & Hndl) [Hfree Hfreel]]. split_and!; try done.
      intros p Hin. rewrite decide_False; [by apply Hfreel|].
      intros Hp. by apply (Hdisj p).
Qed.

Lemma run_adds_lookup_other l s p :
  (∀ x, x ∈ l → p ∉ positions s x) →
  ring (run (AddNode <$> l) s) !! p = ring s !! p.
Proof.
  revert s. induction l as [|y l IH]; intros s Hout; [done|].
  cbn [fmap list_fmap run]. rewrite IH.
  - cbn [perform]. rewrite add_node_run. fields.
    rewrite lookup_set_all, decide_False; [done|]. apply Hout. by left.
  - intros x Hx. rewrite (positions_replicas s) by apply perform_replicas.
    apply Hout. by right.
Qed.

Lemma run_adds_lookup l s p x :
  NoDup (l ≫= positions s) → x ∈ l → p ∈ positions s x →
  ring (run (AddNode <$> l) s) !! p = Some x.
Proof.
  revert s. induction l as [|y l IH]; intros s Hnd Hx Hp.
  { by apply elem_of_nil in Hx. }
  change ((y :: l) ≫= positions s) with (positions s y ++ (l ≫= positions s))%list in Hnd.
  apply NoDup_app in Hnd as (_ & Hdisj & Hndl).
  cbn [fmap list_fmap run].
  destruct (decide (x ∈ l)) as [Hin|Hout].
  - apply IH; [|done|].
    + by rewrite (positions_fmap_replicas s) by apply perform_replicas.
    + by rewrite (positions_replicas s) by apply perform_replicas.
  - apply elem_of_cons in Hx as [->|?]; [|done].
    rewrite run_adds_lookup_other.
    + cbn [perform]. rewrite add_node_run. fields.
      by rewrite lookup_set_all, decide_True.
    + intros z Hz Hpz.
      rewrite (positions_replicas s) in Hpz by apply perform_replicas.
      apply (Hdisj p Hp). apply list_elem_of_bind. by exists z.
Qed.

Lemma size_list_to_set_le (l : list Z) :
  (size (list_to_set l : gset Z) ≤ length l)%nat.
Proof.
  induction l as [|x l IH]; cbn [length].
  - by rewrite list_to_set_nil, size_empty.
  - rewrite list_to_set_cons, size_union_alt, size_singleton.
    assert (size (list_to_set l ∖ {[x]} : gset Z) ≤ size (list_to_set l : gset Z))%nat
      by (apply subseteq_size, subseteq_difference_l; done).
    lia.
Qed.

Lemma init_some l n : (__init__ (Some l) n).2 = run (AddNode <$> l) (blank n).
Proof. apply (init_run (Some l)). Qed.

Lemma clean_adds l n :
  clean (Some l) n [] = true ↔ NoDup (l ≫= positions (blank n)).
Proof.
  unfold clean. cbn [initial_nodes default]. rewrite app_nil_r, collision_free_adds.
  split; [by intros [? _] | intros Hnd; split; [done|]].
  apply Forall_forall. intros p _. apply lookup_empty.
Qed.

End construction.

(** X7. With a replica count of zero or less no position is ever placed:
    whatever the nodes and the calls, the instance stays as [__init__]
    leaves an empty one, [get_node] returns [None], and both [add_node] and
    [remove_node] return without error and without effect. *)
Theorem nonpositive_replicas nodes n cs key node :
  n ≤ 0 →
  state_after nodes n cs = blank n ∧
  get_node key (state_after nodes n cs) = (Returned None, blank n) ∧
  add_node node (blank n) = (Returned (), blank n) ∧
  remove_node node (blank n) = (Returned (), blank n).
Proof.
  intros Hn.
  assert (state_after nodes n cs = blank n) as ->.
  { rewrite state_after_run. by apply run_blank. }
  split; [done|]. split; [by apply get_node_empty|]. split.
  - rewrite add_node_run, positions_nonpositive by done. reflexivity.
  - rewrite remove_node_run, positions_nonpositive by done. reflexivity.
Qed.

Lemma nonpositive_replicas_witness :
  0 ≤ 0 ∧
  state_after (Some ["A"; "B"]) 0 [AddNode "C"; RemoveNode "Z"] = blank 0 ∧
  get_node "k" (state_after (Some ["A"; "B"]) 0 [AddNode "C"; RemoveNode "Z"])
    = (Returned None, blank 0) ∧
  add_node "A" (blank 0) = (Returned (), blank 0) ∧
  remove_node "A" (blank 0) = (Returned (), blank 0).
Proof.
  assert (0 ≤ 0) as H1 by lia.
  split; [exact H1|].
  exact (nonpositive_replicas (Some ["A"; "B"]) 0
           [AddNode "C"; RemoveNode "Z"] "k" "A" H1).
Defined.

(** X8. After construction [sorted_keys] has [replicas] entries for each
    node given; [ring] has at most that many keys, and exactly that many
    when no position was taken twice. *)
Theorem construction_counts nodes n :
  length (sorted_keys (__init__ nodes n).2)
    = (Z.to_nat n * length (initial_nodes nodes))%nat ∧
  (size (ring (__init__ nodes n).2) ≤ Z.to_nat n * length (initial_nodes nodes))%nat ∧
  (clean nodes n [] = true →
   size (ring (__init__ nodes n).2)
     = (Z.to_nat n * length (initial_nodes nodes))%nat).
Proof.
  assert (length (sorted_keys (__init__ nodes n).2)
          = (Z.to_nat n * length (initial_nodes nodes))%nat) as Hlen.
  { rewrite init_run, run_adds_length. reflexivity. }
  split; [done|]. split.
  - rewrite <- Hlen, <- size_dom.
    destruct (weak_inv_after nodes n []) as [_ Hdom]. unfold state_after in Hdom.
    cbn [run] in Hdom.
    etrans; [apply (subseteq_size _ (list_to_set (sorted_keys (__init__ nodes n).2)))|].
    + intros p Hp%elem_of_dom. apply elem_of_list_to_set. by apply Hdom.
    + apply size_list_to_set_le.
  - intros Hclean. rewrite <- Hlen.
    apply size_ring.
    + apply strong_inv_ring_inv; [apply (weak_inv_after nodes n [])|].
      by apply (strong_inv_after nodes n []).
    + by apply (strong_inv_after nodes n []).
Qed.

Lemma construction_counts_witness :
  clean (Some ["A"; "B"; "C"]) 2 [] = true ∧
  size (ring (__init__ (Some ["A"; "B"; "C"]) 2).2)
    = (Z.to_nat 2 * length (initial_nodes (Some ["A"; "B"; "C"])))%nat.
Proof.
  assert (clean (Some ["A"; "B"; "C"]) 2 [] = true) as H1 by compute_done.
  split; [exact H1|].
  exact (proj2 (proj2 (construction_counts (Some ["A"; "B"; "C"]) 2)) H1).
Defined.

(** X9. When no position is taken twice, the order of the nodes given to
    the constructor does not matter: the same nodes in another order give
    the same instance. *)
Theorem construction_order_irrelevant l l' n :
  l ≡ₚ l' → clean (Some l) n [] = true →
  (__init__ (Some l) n).2 = (__init__ (Some l') n).2.
Proof.
  intros Hperm Hclean%clean_adds.
  assert (NoDup (l' ≫= positions (blank n))) as Hclean' by (by rewrite <- Hperm).
  assert (∀ k k' p x, k ≡ₚ k' → NoDup (k' ≫= positions (blank n)) →
            ring (__init__ (Some k) n).2 !! p = Some x →
            ring (__init__ (Some k') n).2 !! p = Some x) as Hmove.
  { intros k k' p x Hk Hnd Hp.
    destruct (init_owned (Some k) n p x Hp) as [Hx Hpx].
    cbn [initial_nodes default] in Hx. apply elem_of_list_to_set in Hx.
    rewrite (positions_replicas (blank n)) in Hpx
      by (rewrite init_some; apply run_replicas).
    rewrite init_some. apply run_adds_lookup; [done| |done]. by rewrite <- Hk. }
  pose proof (weak_inv_after (Some l) n []) as [Hs _].
  pose proof (weak_inv_after (Some l') n []) as [Hs' _].
  unfold state_after in Hs, Hs'. cbn [run] in Hs, Hs'.
  assert (sorted_keys (__init__ (Some l) n).2 ≡ₚ sorted_keys (__init__ (Some l') n).2)
    as Hkeys.
  { assert (∀ k s, sorted_keys (run (AddNode <$> k) s)
                   ≡ₚ (sorted_keys s ++ (k ≫= positions s))%list) as Hall.
    { induction k as [|y k IH]; intros s; cbn [fmap list_fmap run].
      - cbn. by rewrite app_nil_r.
      - rewrite IH, (positions_fmap_replicas s) by apply perform_replicas.
        cbn [perform]. rewrite add_node_run. cbn [sorted_keys snd].
        rewrite merge_sort_Permutation.
        change ((y :: k) ≫= positions s)
          with (positions s y ++ (k ≫= positions s))%list.
        by rewrite app_assoc. }
    rewrite !init_some, !Hall. cbn [blank sorted_keys app]. by rewrite Hperm. }
  apply ConsistentHash_eq.
  - by rewrite !init_some, !run_replicas.
  - apply map_eq. intros p.
    destruct (ring (__init__ (Some l) n).2 !! p) as [x|] eqn:Hp.
    + symmetry. by apply (Hmove l l' p x).
    + destruct (ring (__init__ (Some l') n).2 !! p) as [x|] eqn:Hp'; [|done].
      rewrite (Hmove l' l p x) in Hp; done.
  - by apply (Sorted_unique Z.le).
Qed.

Lemma construction_order_irrelevant_witness :
  ["A"; "B"; "C"] ≡ₚ ["B"; "A"; "C"] ∧
  clean (Some ["A"; "B"; "C"]) 2 [] = true ∧
  (__init__ (Some ["A"; "B"; "C"]) 2).2 = (__init__ (Some ["B"; "A"; "C"]) 2).2.
Proof.
  assert (["A"; "B"; "C"] ≡ₚ ["B"; "A"; "C"]) as H1 by apply perm_swap.
  assert (clean (Some ["A"; "B"; "C"]) 2 [] = true) as H2 by compute_done.
  split; [exact H1|]. split; [exact H2|].
  exact (construction_order_irrelevant ["A"; "B"; "C"] ["B"; "A"; "C"] 2 H1 H2).
Defined.

Section labels.

Lemma no_colon_app a b : ¬ no_colon (a +:+ String ":" b).
Proof.
  induction a as [|c a IH]; cbn; intros H; inversion_clear H; [done|].
  by apply IH.
Qed.

Lemma pretty_N_go_no_colon x s : no_colon s → no_colon (pretty_N_go x s).
Proof.
  revert s. induction (N.lt_wf_0 x) as [x _ IH]; intros s Hs.
  assert (x = 0 ∨ 0 < x)%N as [->|?] by lia.
  - by rewrite pretty_N_go_0.
  - rewrite pretty_N_go_step by done. apply IH.
    { by apply N.div_lt. }
    constructor; [|done]. unfold pretty_N_char. by repeat case_match.
Qed.

Lemma pretty_N_no_colon (x : N) : no_colon (pretty x).
Proof.
  unfold pretty, pretty_N. case_decide.
  - by repeat constructor.
  - apply pretty_N_go_no_colon. constructor.
Qed.

Lemma str_no_colon i : no_colon (str i).
Proof.
  unfold str, pretty, pretty_Z. destruct i as [|x|x].
  - by repeat constructor.
  - apply pretty_N_no_colon.
  - constructor; [done|]. apply pretty_N_no_colon.
Qed.

Lemma split_at_last_colon a b d e :
  no_colon d → no_colon e →
  a +:+ String ":" d = b +:+ String ":" e → a = b ∧ d = e.
Proof.
  intros Hd He. revert b. induction a as [|c a IH]; intros [|c' b]; cbn.
  - by intros [= ->].
  - intros [= <- ->]. by destruct (no_colon_app b e).
  - intros [= -> <-]. by destruct (no_colon_app a d).
  - intros [= -> Heq]. destruct (IH b Heq) as [-> ->]. done.
Qed.

End labels.

(** X10. The labels of the virtual nodes are unique: two labels are equal
    only for the same node and the same replica index, whatever characters
    the node names contain. *)
Theorem vnode_key_inj node node' i j :
  vnode_key node i = vnode_key node' j → node = node' ∧ i = j.
Proof.
  unfold vnode_key. intros Heq.
  destruct (split_at_last_colon node node' (str i) (str j)) as [-> Hstr];
    [apply str_no_colon..|exact Heq|].
  split; [done|]. by apply (inj pretty).
Qed.

Lemma vnode_key_inj_witness :
  vnode_key "A:1" 0 = vnode_key "A:1" 0 ∧ "A:1" = "A:1" ∧ 0 = 0.
Proof.
  assert (vnode_key "A:1" 0 = vnode_key "A:1" 0) as H1 by reflexivity.
  split; [exact H1|].
  exact (vnode_key_inj "A:1" "A:1" 0 0 H1).
Defined.

Section serving.

Lemma bind_disjoint {A B} (f : A → list B) (l : list A) x y p :
  NoDup (l ≫= f) → x ∈ l → y ∈ l → p ∈ f x → p ∈ f y → x = y.
Proof.
  induction l as [|z l IH]; intros Hnd Hx Hy Hpx Hpy.
  { by apply elem_of_nil in Hx. }
  change ((z :: l) ≫= f) with (f z ++ (l ≫= f))%list in Hnd.
  apply NoDup_app in Hnd as (_ & Hdisj & Hnd).
  apply elem_of_cons in Hx as [->|Hx], Hy as [->|Hy]; [done| | |by apply IH].
  - destruct (Hdisj p Hpx). apply list_elem_of_bind. by exists y.
  - destruct (Hdisj p Hpy). apply list_elem_of_bind. by exists x.
Qed.

Lemma bind_NoDup {A B} (f : A → list B) (l : list A) x :
  NoDup (l ≫= f) → x ∈ l → NoDup (f x).
Proof.
  induction l as [|z l IH]; intros Hnd Hx.
  { by apply elem_of_nil in Hx. }
  change ((z :: l) ≫= f) with (f z ++ (l ≫= f))%list in Hnd.
  apply NoDup_app in Hnd as (Hz & _ & Hnd).
  apply elem_of_cons in Hx as [->|Hx]; [done | by apply IH].
Qed.

Lemma serves_ext nodes (alive alive' : string → Prop) s :
  (∀ y, alive y ↔ alive' y) → serves nodes alive s → serves nodes alive' s.
Proof.
  intros Hext (Hinv & Hnd & Hown). split; [done|]. split; [done|].
  intros p y. by rewrite Hown, Hext.
Qed.

(** A clean construction serves all its nodes. *)
Lemma serves_init nodes n :
  clean (Some nodes) n [] = true →
  serves nodes (λ _, True) (__init__ (Some nodes) n).2 ∧
  NoDup (nodes ≫= positions (__init__ (Some nodes) n).2) ∧
  replicas (__init__ (Some nodes) n).2 = n.
Proof.
  intros Hclean.
  pose proof (strong_inv_after (Some nodes) n [] Hclean) as Hstrong.
  pose proof (weak_inv_after (Some nodes) n []) as Hweak.
  unfold state_after in Hstrong, Hweak. cbn [run] in Hstrong, Hweak.
  apply clean_adds in Hclean.
  assert (replicas (__init__ (Some nodes) n).2 = n) as Hn.
  { rewrite init_some. apply run_replicas. }
  assert (∀ y, positions (__init__ (Some nodes) n).2 y = positions (blank n) y) as Hpos.
  { intros y. by apply positions_replicas. }
  split; [|split; [|done]].
  - split; [by apply strong_inv_ring_inv|]. split; [apply Hstrong|].
    intros p y. rewrite Hpos. split.
    + intros Hp. destruct (init_owned (Some nodes) n p y Hp) as [Hy Hpy].
      cbn [initial_nodes default] in Hy. apply elem_of_list_to_set in Hy.
      by rewrite Hpos in Hpy.
    + intros (_ & Hy & Hp). rewrite init_some. by apply run_adds_lookup.
  - by rewrite (positions_fmap_replicas (blank n)).
Qed.

(** Removing a node that is served leaves the others served, and the keys
    of the others on their nodes. *)
Lemma serves_remove nodes alive s x :
  serves nodes alive s → NoDup (nodes ≫= positions s) → alive x → x ∈ nodes →
  ∃ s', remove_node x s = (Returned (), s') ∧
        replicas s' = replicas s ∧
        serves nodes (λ y, alive y ∧ y ≠ x) s' ∧
        ∀ k y, get_node k s = (Returned (Some y), s) → y ≠ x →
               get_node k s' = (Returned (Some y), s').
Proof.
  intros (Hinv & Hnd & Hown) Hdisj Hx Hin.
  assert (present s x) as Hpresent.
  { apply Forall_forall. intros p Hp. by apply Hown. }
  assert (NoDup (positions s x)) as Hndx by (by eapply bind_NoDup).
  destruct (remove_node_present_returns x s Hinv Hpresent Hndx)
    as (s' & Hrun & Hrep & Hlook & _ & _ & Hafter).
  destruct (Hafter Hnd) as [Hinv' Hnd'].
  exists s'. split; [done|]. split; [done|]. split.
  - split; [done|]. split; [done|]. intros p y.
    rewrite (positions_replicas s s') by done. rewrite Hlook.
    destruct (decide (p ∈ positions s x)) as [Hp|Hp].
    + split; [done|]. intros ([_ Hne] & Hy & Hpy).
      destruct Hne. by apply (bind_disjoint (positions s) nodes y x p).
    + rewrite Hown. split.
      * intros (? & ? & ?). split; [|done]. split; [done|]. by intros ->.
      * by intros ([? _] & ? & ?).
  - intros k y Hget Hne.
    destruct (get_node_returned_successor k s y Hinv Hget) as (p & Hsucc & Hp).
    assert (p ∉ positions s x) as Hout.
    { intros Hp'. apply Hne. apply Hown in Hp as (_ & Hy & Hpy).
      by apply (bind_disjoint (positions s) nodes y x p). }
    apply (get_node_of_successor k s' p y Hinv').
    + eapply successor_shrink; [exact Hsucc | |].
      * exists y. by rewrite Hlook, decide_False.
      * intros q [z Hz]. rewrite Hlook in Hz.
        destruct (decide (q ∈ positions s x)); [done | by exists z].
    + by rewrite Hlook, decide_False.
Qed.

Lemma serves_remove_all nodes removed : ∀ alive s,
  serves nodes alive s → NoDup (nodes ≫= positions s) → NoDup removed →
  (∀ x, x ∈ removed → alive x ∧ x ∈ nodes) →
  ∃ s', for_each removed remove_node s = (Returned (), s') ∧
        replicas s' = replicas s ∧
        serves nodes (λ y, alive y ∧ y ∉ removed) s' ∧
        ∀ k y, get_node k s = (Returned (Some y), s) → y ∉ removed →
               get_node k s' = (Returned (Some y), s').
Proof.
  induction removed as [|x removed IH]; intros alive s Hserves Hdisj Hnd Hin.
  - exists s. split; [done|]. split; [done|]. split; [|done].
    eapply serves_ext; [|exact Hserves]. intros y. split; [|by intros [? _]].
    intros ?. split; [done | apply not_elem_of_nil].
  - apply NoDup_cons in Hnd as [Hx Hnd].
    destruct (Hin x) as [Hax Hxn]; [by left|].
    destruct (serves_remove nodes alive s x Hserves Hdisj Hax Hxn)
      as (s1 & Hrun1 & Hrep1 & Hserves1 & Hkeep1).
    destruct (IH (λ y, alive y ∧ y ≠ x) s1) as (s' & Hrun & Hrep & Hserves' & Hkeep).
    + done.
    + by rewrite (positions_fmap_replicas s).
    + done.
    + intros y Hy. destruct (Hin y) as [? ?]; [by right|].
      split; [|done]. split; [done|]. by intros ->.
    + exists s'. rewrite for_each_cons, Hrun1. split; [done|].
      split; [congruence|]. split.
      * eapply serves_ext; [|exact Hserves']. intros y.
        rewrite not_elem_of_cons.
        split; [by intros [[? ?] ?] | by intros [? [? ?]]].
      * intros k y Hget Hy. apply not_elem_of_cons in Hy as [? ?].
        apply Hkeep; [|done]. by apply Hkeep1.
Qed.

(** A ring that serves some node answers every lookup with a node it
    serves. *)
Lemma serves_get_node nodes alive s k :
  serves nodes alive s → 0 < replicas s → (∃ x, alive x ∧ x ∈ nodes) →
  ∃ y, get_node k s = (Returned (Some y), s) ∧ alive y ∧ y ∈ nodes.
Proof.
  intros (Hinv & _ & Hown) Hn (x & Hx & Hin).
  destruct (positions_first s x Hn) as [rest Hpos].
  destruct (get_node_successor k s Hinv) as (_ & p & y & _ & _ & _ & Hget & Hp & _).
  { intros He.
    assert (ring s !! hash32 (vnode_key x 0) = Some x) as Hsome.
    { apply Hown. split; [done|]. split; [done|]. rewrite Hpos. by left. }
    by rewrite He, lookup_empty in Hsome. }
  exists y. split; [done|]. apply Hown in Hp as (? & ? & _). done.
Qed.

End serving.


Section loops.

Lemma total_insert_new (load : gmap string Z) x c :
  load !! x = None → total (<[x := c]> load) = c + total load.
Proof.
  intros Hx. unfold total. apply (map_fold_insert_L (λ _ c acc, c + acc)); [|done].
  intros. lia.
Qed.

Lemma total_increment (load : gmap string Z) x c :
  load !! x = Some c → total (<[x := c + 1]> load) = total load + 1.
Proof.
  intros Hx.
  rewrite <- (insert_delete_eq load x (c + 1)).
  rewrite <- (insert_id load x c Hx) at 2.
  rewrite <- (insert_delete_eq load x c).
  rewrite !total_insert_new by apply lookup_delete_eq. lia.
Qed.

Lemma zero_load_lookup nodes x :
  zero_load nodes !! x = if decide (x ∈ nodes) then Some 0 else None.
Proof.
  unfold zero_load. induction nodes as [|y nodes IH]; cbn [fmap list_fmap].
  - rewrite decide_False; [done | apply not_elem_of_nil].
  - rewrite list_to_map_cons. destruct (decide (x = y)) as [->|Hne].
    + rewrite lookup_insert_eq, decide_True; [done | by left].
    + rewrite lookup_insert_ne, IH by done.
      destruct (decide (x ∈ nodes)).
      * rewrite decide_True; [done | by right].
      * rewrite decide_False; [done | by intros [?|?]%elem_of_cons].
Qed.

Lemma total_zero_load nodes : total (zero_load nodes) = 0.
Proof.
  induction nodes as [|y nodes IH]; [done|].
  unfold zero_load in *. cbn [fmap list_fmap]. rewrite list_to_map_cons.
  pose proof (zero_load_lookup nodes y) as Hy. unfold zero_load in Hy.
  destruct (decide (y ∈ nodes)).
  - by rewrite insert_id.
  - rewrite total_insert_new by done. lia.
Qed.

Lemma dom_zero_load nodes : dom (zero_load nodes) = list_to_set nodes.
Proof.
  apply set_eq. intros x.
  rewrite elem_of_dom, zero_load_lookup, elem_of_list_to_set.
  destruct (decide (x ∈ nodes)); [by split; [|eexists] | by split; [intros [? ?]|]].
Qed.

Lemma increment_served (load : gmap string Z) y :
  y ∈ dom load →
  ∃ load', increment (Some y) load = inr load' ∧
           dom load' = dom load ∧ total load' = total load + 1.
Proof.
  intros [c Hc]%elem_of_dom. unfold increment. rewrite Hc.
  eexists. split; [done|]. split; [|by apply total_increment].
  rewrite dom_insert_L. apply elem_of_dom_2 in Hc.
  apply set_eq. intros z. rewrite elem_of_union, elem_of_singleton.
  split; [by intros [->|?] | by right].
Qed.

Lemma node_of_returned s k y :
  get_node k s = (Returned (Some y), s) → node_of s k = Some y.
Proof. unfold node_of. by intros ->. Qed.

(** The first loop on a ring that answers every key with a node of the
    table. *)
Lemma distribute_served keys : ∀ ch mapping load,
  (∀ k, ∃ y, get_node k ch = (Returned (Some y), ch) ∧ y ∈ dom load) →
  ∃ mapping' load',
    distribute keys ch mapping load = inr (ch, mapping', load') ∧
    (∀ k, mapping' !! k
          = if decide (k ∈ keys) then Some (node_of ch k) else mapping !! k) ∧
    dom load' = dom load ∧
    total load' = total load + Z.of_nat (length keys).
Proof.
  induction keys as [|k keys IH]; intros ch mapping load Hserved.
  - exists mapping, load. split; [done|]. split; [|split; [done | cbn; lia]].
    intros k. rewrite decide_False; [done | apply not_elem_of_nil].
  - cbn [distribute]. destruct (Hserved k) as (y & Hget & Hy). rewrite Hget.
    destruct (increment_served load y Hy) as (load1 & -> & Hdom1 & Htot1).
    destruct (IH ch (<[k := Some y]> mapping) load1)
      as (mapping' & load' & -> & Hmap & Hdom & Htot).
    { intros k'. destruct (Hserved k') as (y' & ? & ?). exists y'.
      by rewrite Hdom1. }
    exists mapping', load'. split; [done|]. split; [|split].
    + intros k'. rewrite Hmap. destruct (decide (k' ∈ keys)) as [Hin|Hout].
      * rewrite decide_True; [done | by right].
      * destruct (decide (k' = k)) as [->|Hne].
        -- rewrite lookup_insert_eq, decide_True by (by left).
           by rewrite (node_of_returned ch k y).
        -- rewrite lookup_insert_ne by done.
           rewrite decide_False; [done | by intros [?|?]%elem_of_cons].
    + congruence.
    + rewrite Htot, Htot1. cbn [length]. lia.
Qed.

(** The second loop, likewise, with the nodes the keys had before. *)
Lemma remap_served keys (old : string → option string) : ∀ ch mapping moved load,
  (∀ k, ∃ y, get_node k ch = (Returned (Some y), ch) ∧ y ∈ dom load) →
  (∀ k, k ∈ keys → mapping !! k = Some (old k)) →
  ∃ load',
    remap keys ch mapping moved load
      = inr (ch,
             moved + Z.of_nat (length (List.filter
                        (λ k, negb (bool_decide (node_of ch k = old k))) keys)),
             load') ∧
    dom load' = dom load ∧
    total load' = total load + Z.of_nat (length keys).
Proof.
  induction keys as [|k keys IH]; intros ch mapping moved load Hserved Hold.
  - exists load. cbn. rewrite Z.add_0_r. split; [done|]. split; [done | lia].
  - cbn [remap]. destruct (Hserved k) as (y & Hget & Hy). rewrite Hget.
    rewrite (Hold k) by (by left).
    destruct (increment_served load y Hy) as (load1 & -> & Hdom1 & Htot1).
    destruct (IH ch mapping
                (if decide (Some y = old k) then moved else moved + 1) load1)
      as (load' & -> & Hdom & Htot).
    { intros k'. destruct (Hserved k') as (y' & ? & ?). exists y'.
      by rewrite Hdom1. }
    { intros k' Hk'. apply Hold. by right. }
    exists load'. split; [|split].
    + match goal with
      | |- inr (_, ?a, _) = inr (_, ?b, _) => replace b with a; [done|]
      end.
      cbn [List.filter]. rewrite (node_of_returned ch k y Hget).
      destruct (decide (Some y = old k)) as [Heq|Hne].
      * rewrite bool_decide_true by done. cbn. lia.
      * rewrite bool_decide_false by done. cbn [negb length]. lia.
    + congruence.
    + rewrite Htot, Htot1. cbn [length]. lia.
Qed.

End loops.


(** X11. The simulation on a ring built without collisions, with a
    positive replica count, from which distinct nodes of the ring are
    removed while at least one stays: neither loop raises, every key is
    first on one of the nodes, the counter of moved keys is exactly the
    number of keys that were on a removed node, the first load table has
    the nodes as keys and the second the nodes that stay, and each table
    adds up to the number of keys. *)
Theorem run_simulation_moves_only_removed nodes n keys removed :
  clean (Some nodes) n [] = true → 0 < n →
  NoDup removed → (∀ x, x ∈ removed → x ∈ nodes) →
  (∃ x, x ∈ nodes ∧ x ∉ removed) →
  ∃ t,
    run_simulation nodes n keys removed = inr t ∧
    (∀ k, k ∈ keys → ∃ y, initial_mapping t !! k = Some (Some y) ∧ y ∈ nodes) ∧
    moved_keys t
      = Z.of_nat (length (List.filter (initially_on removed (initial_mapping t)) keys)) ∧
    dom (node_load t) = list_to_set nodes ∧
    total (node_load t) = Z.of_nat (length keys) ∧
    dom (new_node_load t) = list_to_set nodes ∖ list_to_set removed ∧
    total (new_node_load t) = Z.of_nat (length keys).
Proof.
  intros Hclean Hn Hnd Hsub (x0 & Hx0 & Hx0r).
  destruct (serves_init nodes n Hclean) as (Hserves0 & Hdisj0 & Hrep0).
  set (s0 := (__init__ (Some nodes) n).2) in *.
  assert (∀ k, ∃ y, get_node k s0 = (Returned (Some y), s0) ∧ y ∈ nodes) as Hget0.
  { intros k. destruct (serves_get_node nodes _ s0 k Hserves0) as (y & ? & _ & ?).
    - lia.
    - by exists x0.
    - by exists y. }
  destruct (distribute_served keys s0 ∅ (zero_load nodes))
    as (mapping & load & Hdist & Hmap & Hdom & Htot).
  { intros k. destruct (Hget0 k) as (y & ? & ?). exists y. split; [done|].
    by rewrite dom_zero_load, elem_of_list_to_set. }
  destruct (serves_remove_all nodes removed (λ _, True) s0)
    as (s1 & Hrun & Hrep1 & Hserves1 & Hkeep); [done..| |].
  { intros x Hx. split; [done | by apply Hsub]. }
  assert (∀ k, ∃ y, get_node k s1 = (Returned (Some y), s1) ∧
                    y ∈ nodes ∧ y ∉ removed) as Hget1.
  { intros k. destruct (serves_get_node nodes _ s1 k Hserves1) as (y & ? & [_ ?] & ?).
    - lia.
    - by exists x0.
    - by exists y. }
  destruct (remap_served keys (node_of s0) s1 mapping 0
              (zero_load (filter (λ x, x ∉ removed) nodes)))
    as (load' & Hremap & Hdom' & Htot').
  { intros k. destruct (Hget1 k) as (y & ? & ? & ?). exists y. split; [done|].
    rewrite dom_zero_load, elem_of_list_to_set. by apply list_elem_of_filter. }
  { intros k Hk. by rewrite Hmap, decide_True. }
  exists (Tally mapping load
            (0 + Z.of_nat (length (List.filter
                     (λ k, negb (bool_decide (node_of s1 k = node_of s0 k))) keys)))
            load').
  split; [|split; [|split; [|split; [|split; [|split]]]]];
    cbn [initial_mapping node_load moved_keys new_node_load].
  - unfold run_simulation. fold s0. cbv zeta. by rewrite Hdist, Hrun, Hremap.
  - intros k Hk. destruct (Hget0 k) as (y & Hy & ?). exists y.
    rewrite Hmap, decide_True by done. by rewrite (node_of_returned s0 k y).
  - rewrite Z.add_0_l. do 2 f_equal. apply List.filter_ext_in.
    intros k Hk%list_elem_of_In.
    destruct (Hget0 k) as (y0 & Hy0 & _). destruct (Hget1 k) as (y1 & Hy1 & _ & Hy1r).
    unfold initially_on. rewrite Hmap, decide_True by done.
    rewrite (node_of_returned s0 k y0 Hy0), (node_of_returned s1 k y1 Hy1).
    destruct (decide (y0 ∈ removed)) as [Hin|Hout].
    + rewrite (bool_decide_true (y0 ∈ removed)) by done.
      rewrite bool_decide_false; [done|]. intros [= ->]. done.
    + rewrite (bool_decide_false (y0 ∈ removed)) by done.
      rewrite (Hkeep k y0 Hy0 Hout) in Hy1. injection Hy1 as ->.
      by rewrite bool_decide_true.
  - by rewrite Hdom, dom_zero_load.
  - rewrite Htot, total_zero_load. lia.
  - rewrite Hdom', dom_zero_load. apply set_eq. intros y.
    rewrite elem_of_list_to_set, list_elem_of_filter, elem_of_difference.
    rewrite !elem_of_list_to_set. split; by intros [? ?].
  - rewrite Htot', total_zero_load. lia.
Qed.

Lemma run_simulation_moves_only_removed_witness :
  clean (Some ["A"; "B"; "C"]) 2 [] = true ∧ 0 < 2 ∧
  NoDup ["C"] ∧ (∀ x, x ∈ ["C"] → x ∈ ["A"; "B"; "C"]) ∧
  (∃ x, x ∈ ["A"; "B"; "C"] ∧ x ∉ ["C"]) ∧
  ∃ t, run_simulation ["A"; "B"; "C"] 2 keys3 ["C"] = inr t ∧ moved_keys t = 1.
Proof.
  assert (clean (Some ["A"; "B"; "C"]) 2 [] = true) as H1 by compute_done.
  assert (0 < 2) as H2 by lia.
  assert (NoDup ["C"]) as H3 by compute_done.
  assert (∀ x, x ∈ ["C"] → x ∈ ["A"; "B"; "C"]) as H4.
  { intros x ->%list_elem_of_singleton. compute_done. }
  assert (∃ x, x ∈ ["A"; "B"; "C"] ∧ x ∉ ["C"]) as H5.
  { exists "A". split; compute_done. }
  split; [exact H1|]. split; [exact H2|]. split; [exact H3|].
  split; [exact H4|]. split; [exact H5|].
  destruct (run_simulation_moves_only_removed
              ["A"; "B"; "C"] 2 keys3 ["C"] H1 H2 H3 H4 H5)
    as ([m l mv l'] & Hrun & _).
  assert (match run_simulation ["A"; "B"; "C"] 2 keys3 ["C"] with
          | inr t => moved_keys t
          | inl _ => 0
          end = 1) as Hone by compute_done.
  exists (Tally m l mv l'). split; [exact Hrun|].
  rewrite Hrun in Hone. exact Hone.
Defined.

(** X12. The simulation on a ring without positions (no node, or a
    replica count of zero or less) and at least one key stops in the first
    loop: [get_node] returns [None], which is not a key of the load
    table. *)
Theorem run_simulation_empty_ring nodes n k keys removed :
  n ≤ 0 ∨ nodes = [] →
  run_simulation nodes n (k :: keys) removed = inl (LoadKeyError None).
Proof.
  intros Hempty. unfold run_simulation. cbv zeta.
  assert ((__init__ (Some nodes) n).2 = blank n) as ->.
  { destruct Hempty as [Hn| ->]; [|done].
    rewrite init_some. by apply run_blank. }
  cbn [distribute]. by rewrite (get_node_empty k (blank n)).
Qed.

Lemma run_simulation_empty_ring_witness :
  (0 ≤ 0 ∨ ["A"; "B"] = []) ∧
  run_simulation ["A"; "B"] 0 ["k"] ["B"] = inl (LoadKeyError None).
Proof.
  assert (0 ≤ 0 ∨ ["A"; "B"] = []) as H1 by (left; lia).
  split; [exact H1|].
  exact (run_simulation_empty_ring ["A"; "B"] 0 "k" [] ["B"] H1).
Defined.



